(** * CmdMask: rule parsing, matching and reply policy of the command-mask plugin

    A shallow embedding of [main.py].  Python strings are sequences of
    Unicode code points, so a string is a [list N]; the string methods the
    plugin calls ([strip], [split], [startswith], [lower], [splitlines],
    [re.sub(r"\s+", " ", _)]) are written out on that representation.
    Dictionaries are finite maps ([gmap]); the host event is a record that is
    passed through the matcher and the reply hook explicitly. *)

From Stdlib Require Import NArith Lia.
From stdpp Require Import base option list strings gmap.

Local Open Scope N_scope.

(** ** Python strings *)

Module PyStr.

Abbreviation pystr := (list N).

(** An ASCII literal of the source, as code points. *)
Definition lit (s : string) : pystr :=
  (λ a, Ascii.N_of_ascii a) <$> String.list_ascii_of_string s.

(** [str.isspace] on one code point: the table behind [str.strip] and the
    [\s] class of [re] on [str] patterns. *)
Definition isspace (c : N) : bool :=
  ((0x09 <=? c) && (c <=? 0x0D)) || ((0x1C <=? c) && (c <=? 0x20))
  || (c =? 0x85) || (c =? 0xA0) || (c =? 0x1680)
  || ((0x2000 <=? c) && (c <=? 0x200A))
  || (c =? 0x2028) || (c =? 0x2029) || (c =? 0x202F) || (c =? 0x205F)
  || (c =? 0x3000).

Fixpoint lstrip (s : pystr) : pystr :=
  match s with
  | [] => []
  | c :: s' => if isspace c then lstrip s' else s
  end.

Fixpoint rstrip (s : pystr) : pystr :=
  match s with
  | [] => []
  | c :: s' =>
      match rstrip s' with
      | [] => if isspace c then [] else [c]
      | r => c :: r
      end
  end.

(** [s.strip()] *)
Definition strip (s : pystr) : pystr := rstrip (lstrip s).

(** [text.startswith(prefix)] *)
Fixpoint startswith (text prefix : pystr) {struct prefix} : bool :=
  match prefix, text with
  | [], _ => true
  | p :: prefix', c :: text' => (c =? p) && startswith text' prefix'
  | _ :: _, [] => false
  end.

(** [s.find(sep)]: index of the leftmost occurrence. *)
Fixpoint find (sep s : pystr) : option nat :=
  if startswith s sep then Some 0%nat
  else match s with
       | [] => None
       | _ :: s' => S <$> find sep s'
       end.

(** [sep in s] *)
Definition contains (sep s : pystr) : bool :=
  match find sep s with Some _ => true | None => false end.

(** [s.split(sep)] for a non-empty [sep]: cut at the leftmost occurrence and
    go on behind it.  Each cut removes at least one code point, so
    [length s] rounds are enough. *)
Fixpoint split_fuel (fuel : nat) (sep s : pystr) : list pystr :=
  match find sep s with
  | None => [s]
  | Some i =>
      take i s ::
      match fuel with
      | O => []
      | S fuel' => split_fuel fuel' sep (drop (i + length sep) s)
      end
  end.

Definition split (sep s : pystr) : list pystr :=
  split_fuel (length s) sep s.

(** [s.split(sep, 1)] *)
Definition split_once (sep s : pystr) : list pystr :=
  match find sep s with
  | None => [s]
  | Some i => [take i s; drop (i + length sep) s]
  end.

(** [a, b = s.split(sep, 1)] under the guard [sep in s]; [None] when the
    guard fails. *)
Definition cut_at (sep s : pystr) : option (pystr * pystr) :=
  match find sep s with
  | None => None
  | Some i => Some (take i s, drop (i + length sep) s)
  end.

(** [s.split(sep, 1)[1]].  Every call of the source is guarded by a
    [startswith] test on a prefix that ends in [sep], so the index exists
    (lemmas [after_sep_guard] and [after_sep_guard_lower] below); the
    default stands for the [IndexError] that cannot happen. *)
Definition after_sep (sep s : pystr) : pystr :=
  default [] (split_once sep s !! 1%nat).

(** [str.lower] on one code point.  The plugin compares lowered text only
    with ASCII tokens and ASCII prefixes.  The code points whose lower-case
    form contains an ASCII code point are [A]-[Z], U+0130 (which becomes
    [i] followed by U+0307) and U+212A (Kelvin sign, which becomes [k]);
    every other code point lowers to non-ASCII code points, for which it
    stands itself here. *)
Definition lower_cp (c : N) : pystr :=
  if (0x41 <=? c) && (c <=? 0x5A) then [c + 32]
  else if c =? 0x130 then [0x69; 0x307]
  else if c =? 0x212A then [0x6B]
  else [c].

Definition lower (s : pystr) : pystr := s ≫= lower_cp.

(** [re.sub(r"\s+", " ", s)]: every maximal run of white space becomes one
    space; [in_run] says that the previous code point was white space. *)
Fixpoint collapse_ws (in_run : bool) (s : pystr) : pystr :=
  match s with
  | [] => []
  | c :: s' =>
      if isspace c
      then (if in_run then collapse_ws true s' else 0x20 :: collapse_ws true s')
      else c :: collapse_ws false s'
  end.

(** The line boundaries of [str.splitlines], apart from the pair CR LF. *)
Definition is_linebreak (c : N) : bool :=
  ((0x0A <=? c) && (c <=? 0x0D)) || ((0x1C <=? c) && (c <=? 0x1E))
  || (c =? 0x85) || (c =? 0x2028) || (c =? 0x2029).

(** [s.splitlines()]; [cur] is the current line, reversed. *)
Fixpoint splitlines_go (cur : pystr) (s : pystr) : list pystr :=
  match s with
  | [] => match cur with [] => [] | _ => [rev cur] end
  | c :: s' =>
      if c =? 0x0D then
        match s' with
        | 0x0A :: s'' => rev cur :: splitlines_go [] s''
        | _ => rev cur :: splitlines_go [] s'
        end
      else if is_linebreak c then rev cur :: splitlines_go [] s'
      else splitlines_go (c :: cur) s'
  end.

Definition splitlines (s : pystr) : list pystr := splitlines_go [] s.

End PyStr.

Import PyStr.

(** ** Python values, as far as the plugin observes them

    The plugin asks four things of a configured value: whether it is [None],
    whether it is a [str], its truth value [bool(v)] and its text [str(v)].
    [VObj] is any value that is neither [None] nor a [str] (a boolean, a
    number, ...), given by its truth value and its text. *)

Inductive pyval :=
| VNone
| VStr (s : pystr)
| VObj (truthy : bool) (repr : pystr).

Definition VTrue : pyval := VObj true (lit "True").
Definition VFalse : pyval := VObj false (lit "False").

#[global] Instance pyval_eq_dec : EqDecision pyval.
Proof. solve_decision. Defined.

(** [bool(v)] *)
Definition py_bool (v : pyval) : bool :=
  match v with
  | VNone => false
  | VStr s => negb (bool_decide (s = []))
  | VObj t _ => t
  end.

(** [str(v)] *)
Definition py_str (v : pyval) : pystr :=
  match v with
  | VNone => lit "None"
  | VStr s => s
  | VObj _ r => r
  end.

(** [a or b] *)
Definition py_or (a b : pyval) : pyval := if py_bool a then a else b.

(** [v == s] for a [str] literal [s] *)
Definition py_eq_str (v : pyval) (s : pystr) : bool :=
  match v with
  | VStr s' => bool_decide (s' = s)
  | _ => false
  end.

(** A dictionary with [str] keys; [d.get(k)] and [d.get(k, dflt)]. *)
Abbreviation pydict := (gmap pystr pyval).

Definition dict_get (d : pydict) (k : pystr) : pyval := default VNone (d !! k).
Definition dict_get_or (d : pydict) (k : pystr) (dflt : pyval) : pyval :=
  default dflt (d !! k).

(** An element of a configured list: a [str], a [dict], or anything else. *)
Inductive pyitem :=
| IStr (s : pystr)
| IDict (d : pydict)
| IOther.

(** A top-level configuration value ([Any] in the source): the plugin tells
    [str], [dict] and [list] apart with [isinstance] and otherwise only
    takes the truth value. *)
Inductive pyany :=
| AStr (s : pystr)
| ADict (d : pydict)
| AList (l : list pyitem)
| AOther (truthy : bool).

Definition any_bool (v : pyany) : bool :=
  match v with
  | AStr s => negb (bool_decide (s = []))
  | ADict d => negb (bool_decide (d = ∅))
  | AList l => negb (bool_decide (l = []))
  | AOther t => t
  end.

(** ** Tokens of the inline DSL *)

Module Tok.
Definition KEEP : pystr := lit "keep".
Definition SILENT : pystr := lit "silent".
Definition CUSTOM : pystr := lit "custom".
Definition BAR2 : pystr := lit "||".
Definition ARROW : pystr := lit "=>".
Definition DASH_ARROW : pystr := lit "->".
Definition EQ : pystr := lit "=".
(* The localized tokens, by code point. *)
Definition zh_silent : pystr := [0x9759; 0x9ED8].           (* U+9759 U+9ED8 *)
Definition zh_no_reply : pystr := [0x4E0D; 0x56DE; 0x590D]. (* U+4E0D U+56DE U+590D *)
Definition zh_no_reply2 : pystr := [0x4E0D; 0x56DE].
Definition zh_no_reply3 : pystr := [0x65E0; 0x56DE; 0x590D].
Definition zh_keep : pystr := [0x4FDD; 0x7559].
Definition zh_default : pystr := [0x9ED8; 0x8BA4].
Definition zh_as_is : pystr := [0x539F; 0x6837].
Definition zh_custom : pystr := [0x81EA; 0x5B9A; 0x4E49].
Definition zh_custom2 : pystr := [0x81EA; 0x8BA2].
Definition zh_reply : pystr := [0x56DE; 0x590D].
Definition zh_reply_mode : pystr := [0x56DE; 0x590D; 0x6A21; 0x5F0F].
Definition zh_reply_text : pystr := [0x56DE; 0x590D; 0x6587; 0x672C].
Definition zh_text : pystr := [0x6587; 0x672C].
Definition zh_real_cmd : pystr := [0x771F; 0x5B9E; 0x6307; 0x4EE4].
Definition zh_real_cmd_trad : pystr := [0x771F; 0x5BE6; 0x6307; 0x4EE4].
Definition zh_fake_cmd : pystr := [0x4F2A; 0x88C5; 0x6307; 0x4EE4].
Definition zh_fake_cmd_trad : pystr := [0x507D; 0x88DD; 0x6307; 0x4EE4].
Definition silent_words : list pystr := [lit "silent"; lit "mute"; lit "no_reply"].
Definition silent_words_zh : list pystr :=
  [zh_silent; zh_no_reply; zh_no_reply2; zh_no_reply3].
Definition keep_words : list pystr := [lit "keep"; lit "default"; lit "passthrough"].
Definition keep_words_zh : list pystr := [zh_keep; zh_default; zh_as_is].
Definition custom_words : list pystr := [lit "custom"].
Definition custom_words_zh : list pystr := [zh_custom; zh_custom2].
End Tok.

Import Tok.

(** ** The rule parser *)

Record MappingEntry := {
  alias_raw : pystr;
  target_raw : pystr;
  reply_mode : pystr;
  reply_text : pystr;
}.

#[global] Instance MappingEntry_eq_dec : EqDecision MappingEntry.
Proof. solve_decision. Defined.

Record _State := {
  enabled : bool;
  mappings : list MappingEntry;
}.

Definition _normalize_text (text : pystr) : pystr :=
  collapse_ws false (strip text).

Definition _read_str (value : pyval) : pystr :=
  match value with
  | VStr s => strip s
  | _ => []
  end.

Definition _read_text (value : pyval) : pystr :=
  match value with
  | VNone => []
  | VStr s => strip s
  | VObj _ r => strip r
  end.

(** The body of the loop over [parts[1:]]: one option segment updates the
    pair [(reply_mode, reply_text)]. *)
Definition apply_option (st : pystr * pystr) (opt : pystr) : pystr * pystr :=
  let opt_strip := strip opt in
  let lower_ := lower opt_strip in
  if bool_decide (lower_ ∈ silent_words) || bool_decide (opt_strip ∈ silent_words_zh)
  then (SILENT, st.2)
  else if bool_decide (lower_ ∈ keep_words) || bool_decide (opt_strip ∈ keep_words_zh)
  then (KEEP, st.2)
  else if bool_decide (lower_ ∈ custom_words) || bool_decide (opt_strip ∈ custom_words_zh)
  then (CUSTOM, st.2)
  else if startswith lower_ (lit "reply_mode=") || startswith opt_strip (zh_reply_mode ++ EQ)
  then
    let mode := strip (after_sep EQ opt_strip) in
    let mode_lower := lower mode in
    if bool_decide (mode_lower ∈ [SILENT; CUSTOM; KEEP]) then (mode_lower, st.2)
    else if bool_decide (mode ∈ silent_words_zh) then (SILENT, st.2)
    else if bool_decide (mode ∈ custom_words_zh) then (CUSTOM, st.2)
    else if bool_decide (mode ∈ keep_words_zh) then (KEEP, st.2)
    else st
  else if startswith lower_ (lit "reply=") || startswith lower_ (lit "reply_text=")
          || startswith opt_strip (zh_reply ++ EQ)
          || startswith opt_strip (zh_reply_text ++ EQ)
  then (CUSTOM, strip (after_sep EQ opt_strip))
  else if startswith lower_ (lit "text=") || startswith opt_strip (zh_text ++ EQ)
  then (CUSTOM, strip (after_sep EQ opt_strip))
  else if startswith opt_strip (zh_reply ++ lit ":")
  then (CUSTOM, strip (after_sep (lit ":") opt_strip))
  else (CUSTOM, opt_strip).

(** [_parse_mapping_line] on a [str].  The tests ["=>" in mapping_part] and
    ["->" in mapping_part] and the [split(sep, 1)] that follows each are one
    [cut_at]: the cut is at the leftmost occurrence. *)
Definition _parse_mapping_line (line : pystr) : option MappingEntry :=
  if bool_decide (line = []) then None
  else
    match filter (λ part, part ≠ []) (strip <$> split BAR2 line) with
    | [] => None
    | mapping_part :: opts =>
        let cut :=
          match cut_at ARROW mapping_part with
          | Some p => Some p
          | None => cut_at DASH_ARROW mapping_part
          end in
        match cut with
        | None => None
        | Some (target_raw0, alias_raw0) =>
            let alias_raw := strip alias_raw0 in
            let target_raw := strip target_raw0 in
            if bool_decide (alias_raw = []) || bool_decide (target_raw = [])
            then None
            else
              let st := foldl apply_option (KEEP, []) opts in
              Some {| alias_raw := alias_raw; target_raw := target_raw;
                      reply_mode := st.1; reply_text := st.2 |}
        end
    end.

Definition _build_mapping_from_config
    (command alias_text silent reply_text : pyval) : option MappingEntry :=
  let command_str := _read_str command in
  let alias_str := _read_str alias_text in
  if bool_decide (command_str = []) || bool_decide (alias_str = []) then None
  else
    let reply_text_str := _read_text reply_text in
    let reply_mode :=
      if py_bool silent then SILENT
      else if bool_decide (reply_text_str = []) then KEEP else CUSTOM in
    Some {| alias_raw := alias_str; target_raw := command_str;
            reply_mode := reply_mode; reply_text := reply_text_str |}.

Definition _build_fixed_mapping (command : pystr) (data : pyany)
    : option MappingEntry :=
  match data with
  | ADict d =>
      _build_mapping_from_config (VStr command)
        (dict_get d (lit "alias_text"))
        (dict_get_or d (lit "silent") VFalse)
        (dict_get d (lit "reply_text"))
  | _ => None
  end.

(** One round of the loop of [_build_custom_mappings]. *)
Definition custom_item (item : pyitem) : option MappingEntry :=
  match item with
  | IDict d =>
      _build_mapping_from_config
        (dict_get d (lit "command"))
        (py_or (py_or (dict_get d (lit "alias_text")) (dict_get d (lit "alias")))
               (dict_get d (lit "mask")))
        (dict_get_or d (lit "silent") VFalse)
        (py_or (py_or (dict_get d (lit "reply_text")) (dict_get d (lit "reply")))
               (dict_get d zh_reply))
  | _ => None
  end.

Definition _build_custom_mappings (raw_list : pyany) : list MappingEntry :=
  match raw_list with
  | AList l => omap custom_item l
  | _ => []
  end.

(** The line that [_build_mappings] synthesizes for a record item. *)
Definition record_line (command_str alias_str reply_mode reply_text : pystr)
    : pystr :=
  command_str ++ lit " => " ++ alias_str ++ lit " || reply_mode=" ++ reply_mode
    ++ lit " || reply=" ++ reply_text.

(** One round of the loop of [_build_mappings]. *)
Definition mixed_item (item : pyitem) : option MappingEntry :=
  match item with
  | IStr s => _parse_mapping_line s
  | IDict d =>
      let command :=
        py_or (py_or (py_or (dict_get d (lit "command")) (dict_get d (lit "target")))
                     (dict_get d zh_real_cmd))
              (dict_get d zh_real_cmd_trad) in
      let alias :=
        py_or (py_or (py_or (dict_get d (lit "alias")) (dict_get d (lit "mask")))
                     (dict_get d zh_fake_cmd))
              (dict_get d zh_fake_cmd_trad) in
      let command_str := _read_str command in
      let alias_str := _read_str alias in
      if bool_decide (command_str = []) || bool_decide (alias_str = []) then None
      else
        let reply_mode :=
          _read_text (py_or (py_or (dict_get d (lit "reply_mode"))
                                   (dict_get d zh_reply_mode))
                            (VStr KEEP)) in
        let reply_text :=
          _read_text (py_or (py_or (dict_get d (lit "reply_text"))
                                   (dict_get d zh_reply))
                            (VStr [])) in
        _parse_mapping_line (record_line command_str alias_str reply_mode reply_text)
  | IOther => None
  end.

Definition _build_mappings (raw_list : list pyitem) : list MappingEntry :=
  omap mixed_item raw_list.

(** One round of the loop of [_build_mappings_from_text]. *)
Definition text_line (raw : pystr) : option MappingEntry :=
  let line := strip raw in
  if bool_decide (line = []) then None
  else if startswith line (lit "#") || startswith line (lit "//")
          || startswith line (lit ";")
  then None
  else _parse_mapping_line line.

Definition _build_mappings_from_text (text : pyany) : list MappingEntry :=
  match text with
  | AStr s => omap text_line (splitlines s)
  | _ => []
  end.

(** ** The rule store *)

(** The plugin configuration: [None], or a dictionary of top-level values.
    [_cfg cfg key dflt] is [self._cfg(key, default)]. *)
Abbreviation plugin_config := (option (gmap pystr pyany)).

Definition _cfg (config : plugin_config) (key : pystr) (dflt : pyany) : pyany :=
  match config with
  | None => dflt
  | Some c => default dflt (c !! key)
  end.

Definition opt_to_list {A} (o : option A) : list A :=
  match o with Some a => [a] | None => [] end.

(** [_load_config]: the new value of [STATE]. *)
Definition _load_config (config : plugin_config) : _State :=
  let enabled := any_bool (_cfg config (lit "enable") (AOther true)) in
  let reset_rule := _cfg config (lit "reset_rule") (ADict ∅) in
  let new_rule := _cfg config (lit "new_rule") (ADict ∅) in
  let custom_rules := _cfg config (lit "custom_rules") (AList []) in
  let rules_text := _cfg config (lit "rules_text") (AStr []) in
  let raw_mappings :=
    match _cfg config (lit "mappings") (AList []) with
    | AList l => l
    | _ => []
    end in
  {| enabled := enabled;
     mappings :=
       opt_to_list (_build_fixed_mapping (lit "/reset") reset_rule)
       ++ opt_to_list (_build_fixed_mapping (lit "/new") new_rule)
       ++ _build_custom_mappings custom_rules
       ++ _build_mappings_from_text rules_text
       ++ _build_mappings raw_mappings |}.

(** ** The host event

    The host's event object, as the plugin uses it: the message text
    (readable and writable), the wake flag, the per-message annotations
    ([get_extra] / [set_extra]), the flag behind [should_call_llm] and the
    result ([set_result]); a result is a chain of components, empty for
    [make_result()] and one plain-text component for [plain_result(text)]. *)

Inductive component :=
| Plain (text : pystr)
| OtherComponent (tag : N).

Record AstrMessageEvent := {
  message_str : pystr;
  is_at_or_wake_command : bool;
  extras : gmap pystr pyval;
  call_llm : bool;
  result : option (list component);
}.

Definition get_extra (event : AstrMessageEvent) (key : pystr) (dflt : pyval)
    : pyval :=
  default dflt (extras event !! key).

Definition set_extra (event : AstrMessageEvent) (key : pystr) (value : pyval)
    : AstrMessageEvent :=
  {| message_str := message_str event;
     is_at_or_wake_command := is_at_or_wake_command event;
     extras := <[key := value]> (extras event);
     call_llm := call_llm event;
     result := result event |}.

Definition set_message_str (event : AstrMessageEvent) (msg : pystr)
    : AstrMessageEvent :=
  {| message_str := msg;
     is_at_or_wake_command := is_at_or_wake_command event;
     extras := extras event;
     call_llm := call_llm event;
     result := result event |}.

Definition should_call_llm (event : AstrMessageEvent) (b : bool)
    : AstrMessageEvent :=
  {| message_str := message_str event;
     is_at_or_wake_command := is_at_or_wake_command event;
     extras := extras event;
     call_llm := b;
     result := result event |}.

Definition set_result (event : AstrMessageEvent) (r : list component)
    : AstrMessageEvent :=
  {| message_str := message_str event;
     is_at_or_wake_command := is_at_or_wake_command event;
     extras := extras event;
     call_llm := call_llm event;
     result := Some r |}.

Definition make_result : list component := [].
Definition plain_result (text : pystr) : list component := [Plain text].

(** The host configuration, of which the plugin reads [wake_prefix]. *)
Abbreviation AstrBotConfig := (gmap pystr pyany).

(** ** The matcher *)

Definition _get_wake_prefixes (cfg : AstrBotConfig) : list pystr :=
  let prefixes :=
    match default (AList []) (cfg !! lit "wake_prefix") with
    | AStr s => AList [IStr s]
    | v => v
    end in
  match prefixes with
  | AList l =>
      omap (λ p, match p with
                 | IStr s => if bool_decide (s = []) then None else Some s
                 | _ => None
                 end) l
  | _ => []
  end.

Fixpoint _strip_wake_prefix (text : pystr) (prefixes : list pystr) : pystr :=
  match prefixes with
  | [] => text
  | prefix :: rest =>
      if negb (bool_decide (prefix = [])) && startswith text prefix
      then strip (drop (length prefix) text)
      else _strip_wake_prefix text rest
  end.

Definition K_APPLIED : pystr := lit "_cmdmask_applied".
Definition K_REPLY_MODE : pystr := lit "_cmdmask_reply_mode".
Definition K_REPLY_TEXT : pystr := lit "_cmdmask_reply_text".
Definition K_ALIAS : pystr := lit "_cmdmask_alias".
Definition K_TARGET : pystr := lit "_cmdmask_target".
Definition K_ORIGINAL : pystr := lit "_cmdmask_original_message".

(** What the matcher does to the event once [entry] is chosen. *)
Definition rewrite_event (event : AstrMessageEvent) (entry : MappingEntry)
    (alias_norm target_norm new_msg : pystr) : AstrMessageEvent :=
  let e1 := set_extra event K_APPLIED VTrue in
  let e2 := set_extra e1 K_REPLY_MODE (VStr (reply_mode entry)) in
  let e3 := set_extra e2 K_REPLY_TEXT (VStr (reply_text entry)) in
  let e4 := set_extra e3 K_ALIAS (VStr alias_norm) in
  let e5 := set_extra e4 K_TARGET (VStr target_norm) in
  let e6 := set_extra e5 K_ORIGINAL (VStr (message_str e5)) in
  let e7 := if bool_decide (new_msg ≠ message_str e6)
            then set_message_str e6 new_msg else e6 in
  should_call_llm e7 true.

(** The loop [for entry in STATE.mappings] of [_apply_mapping]. *)
Fixpoint apply_loop (prefixes : list pystr) (msg : pystr)
    (event : AstrMessageEvent) (entries : list MappingEntry)
    : bool * AstrMessageEvent :=
  match entries with
  | [] => (false, event)
  | entry :: rest =>
      let alias_norm :=
        _strip_wake_prefix (_normalize_text (alias_raw entry)) prefixes in
      if bool_decide (alias_norm = []) then apply_loop prefixes msg event rest
      else if bool_decide (msg = alias_norm)
              || startswith msg (alias_norm ++ lit " ")
      then
        let target_norm :=
          _strip_wake_prefix (_normalize_text (target_raw entry)) prefixes in
        if bool_decide (target_norm = []) then apply_loop prefixes msg event rest
        else
          let suffix := strip (drop (length alias_norm) msg) in
          let new_msg :=
            if bool_decide (suffix = []) then target_norm
            else target_norm ++ lit " " ++ suffix in
          (true, rewrite_event event entry alias_norm target_norm new_msg)
      else apply_loop prefixes msg event rest
  end.

Definition _apply_mapping (STATE : _State) (event : AstrMessageEvent)
    (cfg : AstrBotConfig) : bool * AstrMessageEvent :=
  if negb (enabled STATE) || bool_decide (mappings STATE = []) then (false, event)
  else if py_bool (get_extra event K_APPLIED VFalse) then (true, event)
  else if negb (is_at_or_wake_command event) then (false, event)
  else
    let msg := _normalize_text (message_str event) in
    if bool_decide (msg = []) then (false, event)
    else apply_loop (_get_wake_prefixes cfg) msg event (mappings STATE).

(** ** The reply policy hook *)

Definition _override_reply (event : AstrMessageEvent) : AstrMessageEvent :=
  if negb (py_bool (get_extra event K_APPLIED VFalse)) then event
  else
    let mode := get_extra event K_REPLY_MODE (VStr KEEP) in
    if py_eq_str mode KEEP then event
    else if py_eq_str mode SILENT then set_result event make_result
    else if py_eq_str mode CUSTOM then
      let text := get_extra event K_REPLY_TEXT (VStr []) in
      if negb (py_bool text) || bool_decide (strip (py_str text) = [])
      then set_result event make_result
      else set_result event (plain_result (py_str text))
    else event.

(** ** Notions used in the statements *)

(** [sep] occurs in [s] as a contiguous block. *)
Definition occurs (sep s : pystr) : Prop := ∃ a b, s = a ++ sep ++ b.

(** [s] consists of white space only. *)
Definition blank (s : pystr) : bool := forallb isspace s.

(** The normalized, wake-prefix-stripped alias and target of an entry. *)
Definition alias_norm_of (prefixes : list pystr) (entry : MappingEntry) : pystr :=
  _strip_wake_prefix (_normalize_text (alias_raw entry)) prefixes.

Definition target_norm_of (prefixes : list pystr) (entry : MappingEntry) : pystr :=
  _strip_wake_prefix (_normalize_text (target_raw entry)) prefixes.

(** The alias condition: the message is the alias, or the alias followed by
    a space and more. *)
Definition alias_matches (prefixes : list pystr) (msg : pystr)
    (entry : MappingEntry) : bool :=
  bool_decide (msg = alias_norm_of prefixes entry)
  || startswith msg (alias_norm_of prefixes entry ++ lit " ").

(** The alias condition holds and the target is not empty. *)
Definition selects (prefixes : list pystr) (msg : pystr)
    (entry : MappingEntry) : bool :=
  alias_matches prefixes msg entry
  && negb (bool_decide (target_norm_of prefixes entry = [])).

(** The message that the chosen entry rewrites [msg] to. *)
Definition rewritten (prefixes : list pystr) (msg : pystr)
    (entry : MappingEntry) : pystr :=
  let suffix := strip (drop (length (alias_norm_of prefixes entry)) msg) in
  if bool_decide (suffix = []) then target_norm_of prefixes entry
  else target_norm_of prefixes entry ++ lit " " ++ suffix.

(** Both raw fields of an entry are non-empty. *)
Definition well_formed (entry : MappingEntry) : Prop :=
  alias_raw entry ≠ [] ∧ target_raw entry ≠ [].

(** An entry with another reply mode and reply text. *)
Definition with_reply (entry : MappingEntry) (st : pystr * pystr) : MappingEntry :=
  {| alias_raw := alias_raw entry; target_raw := target_raw entry;
     reply_mode := st.1; reply_text := st.2 |}.

(** The three reply modes. *)
Definition reply_modes : list pystr := [KEEP; SILENT; CUSTOM].

(** No white space at either end. *)
Definition trimmed (s : pystr) : Prop := strip s = s.

(** [_parse_mapping_line] behind the split: from the non-empty trimmed
    segments of the line to the entry. *)
Definition parse_parts (parts : list pystr) : option MappingEntry :=
  match parts with
  | [] => None
  | mapping_part :: opts =>
      let cut :=
        match cut_at ARROW mapping_part with
        | Some p => Some p
        | None => cut_at DASH_ARROW mapping_part
        end in
      match cut with
      | None => None
      | Some (target_raw0, alias_raw0) =>
          let alias_raw := strip alias_raw0 in
          let target_raw := strip target_raw0 in
          if bool_decide (alias_raw = []) || bool_decide (target_raw = [])
          then None
          else
            let st := foldl apply_option (KEEP, []) opts in
            Some {| alias_raw := alias_raw; target_raw := target_raw;
                    reply_mode := st.1; reply_text := st.2 |}
      end
  end.

(** What holds of an entry whichever parser built it. *)
Definition entry_invariant (e : MappingEntry) : Prop :=
  reply_mode e ∈ reply_modes
  ∧ trimmed (alias_raw e) ∧ trimmed (target_raw e) ∧ trimmed (reply_text e).

(** ** Concrete inputs *)

Definition entry_of (alias target mode text : string) : MappingEntry :=
  {| alias_raw := lit alias; target_raw := lit target;
     reply_mode := lit mode; reply_text := lit text |}.

Definition fresh_event (msg : string) : AstrMessageEvent :=
  {| message_str := lit msg; is_at_or_wake_command := true; extras := ∅;
     call_llm := false; result := None |}.

Definition host_reply : list component := [Plain (lit "host reply")].

(** An event as the matcher leaves it, with a reply of the host on it. *)
Definition applied_event (mode text : string) : AstrMessageEvent :=
  {| message_str := lit "/reset"; is_at_or_wake_command := true;
     extras := <[K_REPLY_TEXT := VStr (lit text)]>
                 (<[K_REPLY_MODE := VStr (lit mode)]>
                    (<[K_APPLIED := VTrue]> ∅));
     call_llm := true; result := Some host_reply |}.

Definition store_new_reset : _State :=
  {| enabled := true; mappings := [entry_of "/new" "/reset" "keep" ""] |}.

Definition record_new_n : pydict :=
  <[lit "command" := VStr (lit "/new")]> (<[lit "alias" := VStr (lit "/n")]> ∅).

Definition record_new_n_silent : pydict :=
  <[lit "silent" := VTrue]> record_new_n.

Definition record_new_n_reply : pydict :=
  <[lit "reply_text" := VStr (lit "hello || world")]> record_new_n.

(** Two rules with the alias ["/r"], the first with a target that is just the
    wake prefix ["/"]. *)
Definition store_r_twice : _State :=
  {| enabled := true;
     mappings := [entry_of "/r" "/" "custom" "first";
                  entry_of "/r" "/reset" "custom" "second"] |}.

Definition cfg_slash : AstrBotConfig :=
  <[lit "wake_prefix" := AList [IStr (lit "/")]]> ∅.

Definition store_r_r2 : _State :=
  {| enabled := true;
     mappings := [entry_of "/r" "/reset" "keep" "";
                  entry_of "/r2" "/reload" "keep" ""] |}.

Definition config_reset_r : plugin_config :=
  Some (<[lit "reset_rule" := ADict (<[lit "alias_text" := VStr (lit "/r")]> ∅)]> ∅).

(** * Facts about the string primitives *)

Section string_facts.
Implicit Types (s t sep p : pystr) (c : N).

Lemma startswith_iff text p :
  startswith text p = true ↔ ∃ rest, text = p ++ rest.
Proof.
  revert text. induction p as [|x p IH]; intros text; simpl.
  - split; [intros _; by exists text | done].
  - destruct text as [|c text]; simpl.
    + split; [done | intros [rest Hr]; discriminate].
    + rewrite andb_true_iff, N.eqb_eq, IH. split.
      * intros [-> [rest ->]]. by exists rest.
      * intros [rest Hr]. injection Hr as -> ->. eauto.
Qed.

Lemma startswith_app p rest : startswith (p ++ rest) p = true.
Proof. apply startswith_iff. by exists rest. Qed.

Lemma startswith_nil_l p : startswith [] p = true → p = [].
Proof. by destruct p. Qed.

Lemma occurs_infix sep t a b : occurs sep t → occurs sep (a ++ t ++ b).
Proof.
  intros (a' & b' & ->). exists (a ++ a'), (b' ++ b).
  by rewrite <- !(assoc_L (++)).
Qed.

Lemma occurs_suffix sep t a : occurs sep t → occurs sep (a ++ t).
Proof.
  intros H. apply (occurs_infix sep t a []) in H. by rewrite app_nil_r in H.
Qed.

Lemma occurs_prefix sep t b : occurs sep t → occurs sep (t ++ b).
Proof. intros H. by apply (occurs_infix sep t [] b) in H. Qed.

Lemma occurs_nil sep : sep ≠ [] → ¬ occurs sep [].
Proof.
  intros Hsep (a & b & H). symmetry in H.
  apply app_eq_nil in H as [_ H]. apply app_eq_nil in H as [H _]. done.
Qed.

Lemma find_None sep s : find sep s = None ↔ ¬ occurs sep s.
Proof.
  induction s as [|c s IH]; simpl.
  - destruct (startswith [] sep) eqn:Hs.
    + split; [done|]. intros H. exfalso. apply H.
      apply startswith_nil_l in Hs as ->. by exists [], [].
    + split; [|done]. intros _ (a & b & H). symmetry in H.
      apply app_eq_nil in H as [-> H]. apply app_eq_nil in H as [-> _].
      done.
  - destruct (startswith (c :: s) sep) eqn:Hs.
    + split; [done|]. intros H. exfalso. apply H.
      apply startswith_iff in Hs as [rest Hr]. exists [], rest. by rewrite Hr.
    + rewrite fmap_None, IH. split.
      * intros Hno (a & b & H). destruct a as [|x a].
        -- simpl in H. rewrite H, startswith_app in Hs. done.
        -- injection H as -> ->. apply Hno. by exists a, b.
      * intros Hno (a & b & ->). apply Hno. by exists (c :: a), b.
Qed.

Lemma contains_false sep s : contains sep s = false ↔ ¬ occurs sep s.
Proof.
  unfold contains. rewrite <- find_None. by destruct (find sep s).
Qed.

Lemma find_Some sep s i :
  find sep s = Some i →
  s = take i s ++ sep ++ drop (i + length sep) s
  ∧ (sep ≠ [] → ¬ occurs sep (take i s)).
Proof.
  revert i. induction s as [|c s IH]; intros i; simpl.
  - destruct (startswith [] sep) eqn:Hs; [|done].
    intros [= <-]. apply startswith_nil_l in Hs as ->. split; [done|]. done.
  - destruct (startswith (c :: s) sep) eqn:Hs.
    + intros [= <-]. apply startswith_iff in Hs as [rest Hr]. simpl. split.
      * rewrite Hr at 1. f_equal. rewrite Hr. by rewrite drop_app_length.
      * intros Hsep. by apply occurs_nil.
    + destruct (find sep s) as [j|] eqn:Hf; [|done]. intros [= <-].
      destruct (IH j eq_refl) as [Heq Hno]. simpl. split.
      * by rewrite <- Heq.
      * intros Hsep (a & b & H). destruct a as [|x a].
        -- simpl in H.
           assert (startswith (c :: s) sep = true) as Hs'; [|congruence].
           apply startswith_iff. exists (b ++ drop j s).
           rewrite <- (take_drop j s) at 1.
           rewrite app_comm_cons, H. by rewrite <- (assoc_L (++)).
        -- injection H as -> H. apply (Hno Hsep). by exists a, b.
Qed.

(** Every piece of [split] is free of the separator. *)
Lemma split_fuel_pieces fuel sep s p :
  sep ≠ [] → p ∈ split_fuel fuel sep s → ¬ occurs sep p.
Proof.
  intros Hsep. revert s. induction fuel as [|fuel IH]; intros s; simpl.
  - destruct (find sep s) as [i|] eqn:Hf.
    + intros ->%list_elem_of_singleton. by apply (find_Some sep s i).
    + intros ->%list_elem_of_singleton. by apply find_None.
  - destruct (find sep s) as [i|] eqn:Hf.
    + intros [->|Hp]%elem_of_cons; [by apply (find_Some sep s i) | eauto].
    + intros ->%list_elem_of_singleton. by apply find_None.
Qed.

Lemma split_pieces sep s p : sep ≠ [] → p ∈ split sep s → ¬ occurs sep p.
Proof. apply split_fuel_pieces. Qed.

Lemma split_fuel_absent fuel sep s : find sep s = None → split_fuel fuel sep s = [s].
Proof. intros H. destruct fuel; simpl; by rewrite H. Qed.

(** White space at the ends. *)
Lemma lstrip_suffix s : ∃ w, s = w ++ lstrip s.
Proof.
  induction s as [|c s [w IH]]; simpl; [by exists []|].
  destruct (isspace c); [|by exists []].
  exists (c :: w). simpl. by f_equal.
Qed.

Lemma rstrip_prefix s : ∃ w, s = rstrip s ++ w.
Proof.
  induction s as [|c s [w IH]]; simpl; [by exists []|].
  destruct (rstrip s) as [|x r] eqn:Hr.
  - destruct (isspace c).
    + exists (c :: s). done.
    + exists w. simpl. by f_equal.
  - exists w. simpl. by f_equal.
Qed.

Lemma strip_infix s : ∃ w1 w2, s = w1 ++ strip s ++ w2.
Proof.
  destruct (lstrip_suffix s) as [w1 H1].
  destruct (rstrip_prefix (lstrip s)) as [w2 H2].
  exists w1, w2. unfold strip. by rewrite <- H2.
Qed.

Lemma occurs_strip sep s : occurs sep (strip s) → occurs sep s.
Proof.
  destruct (strip_infix s) as (w1 & w2 & H). intros Ho.
  rewrite H. by apply occurs_infix.
Qed.

Lemma lstrip_nil s : lstrip s = [] ↔ blank s = true.
Proof.
  induction s as [|c s IH]; simpl; [done|].
  destruct (isspace c); simpl; [done|]. split; done.
Qed.

Lemma rstrip_nil s : rstrip s = [] ↔ blank s = true.
Proof.
  induction s as [|c s IH]; simpl; [done|].
  destruct (rstrip s) as [|x r].
  - destruct (isspace c); simpl.
    + by rewrite <- IH.
    + split; done.
  - split; [done|]. intros [_ H]%andb_true_iff. by apply IH in H.
Qed.

Lemma lstrip_not_space s c r : lstrip s = c :: r → isspace c = false.
Proof.
  induction s as [|x s IH]; simpl; [done|].
  destruct (isspace x) eqn:Hx; [done|]. by intros [= <- _].
Qed.

Lemma rstrip_cons_not_space c s :
  isspace c = false → ∃ r, rstrip (c :: s) = c :: r.
Proof. intros Hc. simpl. rewrite Hc. destruct (rstrip s); eauto. Qed.

Lemma strip_head s : strip s = [] ∨ ∃ c r, strip s = c :: r ∧ isspace c = false.
Proof.
  unfold strip. destruct (lstrip s) as [|c r] eqn:Hl; [by left|].
  right. pose proof (lstrip_not_space _ _ _ Hl) as Hc.
  destruct (rstrip_cons_not_space c r Hc) as [r' Hr]. eauto.
Qed.

Lemma lstrip_idemp s : lstrip (lstrip s) = lstrip s.
Proof.
  induction s as [|c s IH]; simpl; [done|].
  destruct (isspace c) eqn:Hc; [done|]. simpl. by rewrite Hc.
Qed.

Lemma rstrip_idemp s : rstrip (rstrip s) = rstrip s.
Proof.
  induction s as [|c s IH]; simpl; [done|].
  destruct (rstrip s) as [|x r] eqn:Hr.
  - destruct (isspace c) eqn:Hc; simpl; [done|]. by rewrite Hc.
  - simpl in *. by rewrite IH.
Qed.

Lemma lstrip_rstrip s : lstrip (rstrip s) = rstrip (lstrip s).
Proof.
  induction s as [|c s IH]; simpl; [done|].
  destruct (isspace c) eqn:Hc.
  - destruct (rstrip s) as [|x r] eqn:Hr.
    + simpl in *. done.
    + simpl. rewrite Hc. done.
  - destruct (rstrip s) as [|x r] eqn:Hr; simpl; rewrite Hc, ?Hr; done.
Qed.

Lemma strip_lstrip s : strip (lstrip s) = strip s.
Proof. unfold strip. by rewrite lstrip_idemp. Qed.

Lemma strip_rstrip s : strip (rstrip s) = strip s.
Proof. unfold strip. by rewrite lstrip_rstrip, rstrip_idemp. Qed.

Lemma strip_nil s : strip s = [] ↔ blank s = true.
Proof.
  unfold strip. rewrite rstrip_nil. split.
  - intros H. apply lstrip_nil. destruct (lstrip s) as [|c r] eqn:Hl; [done|].
    apply lstrip_not_space in Hl. simpl in H. by rewrite Hl in H.
  - intros H. apply lstrip_nil in H. by rewrite H.
Qed.

Lemma lstrip_app s t : blank s = false → lstrip (s ++ t) = lstrip s ++ t.
Proof.
  induction s as [|c s IH]; simpl; [done|].
  destruct (isspace c); simpl; [auto | done].
Qed.

Lemma rstrip_app s t : blank t = false → rstrip (s ++ t) = s ++ rstrip t.
Proof.
  intros Ht. induction s as [|c s IH]; simpl; [done|].
  rewrite IH. destruct (rstrip t) as [|x r] eqn:Hr.
  - apply rstrip_nil in Hr. congruence.
  - by destruct s.
Qed.

End string_facts.

(** * Facts about the parser *)

Section parser_facts.
Implicit Types (s t sep p line : pystr) (c : N) (e : MappingEntry).

Lemma BAR2_nonempty : BAR2 ≠ [].
Proof. done. Qed.

(** A separator of two different code points that does not occur in [a] is
    found right behind [a]. *)
Lemma find_cons sep c s :
  find sep (c :: s)
  = if startswith (c :: s) sep then Some 0%nat else S <$> find sep s.
Proof. done. Qed.

Lemma find_two_app x y a b :
  x ≠ y → find [x; y] a = None → find [x; y] (a ++ [x; y] ++ b) = Some (length a).
Proof.
  intros Hxy. induction a as [|c a IH]; intros Ha.
  - simpl. by rewrite !N.eqb_refl.
  - rewrite find_cons in Ha.
    destruct (startswith (c :: a) [x; y]) eqn:Hs; [done|].
    apply fmap_None in Ha. rewrite <- app_comm_cons, find_cons.
    assert (startswith (c :: (a ++ [x; y] ++ b)) [x; y] = false) as ->.
    { destruct a as [|d a]; simpl in *; [|done].
      apply andb_false_iff. right. apply andb_false_iff. left.
      by apply N.eqb_neq. }
    by rewrite (IH Ha).
Qed.

Lemma occurs_after_sep sep' sep s :
  sep' ≠ [] → occurs sep' (after_sep sep s) → occurs sep' s.
Proof.
  intros Hsep. unfold after_sep, split_once.
  destruct (find sep s) as [i|]; simpl.
  - intros H. rewrite <- (take_drop (i + length sep) s). by apply occurs_suffix.
  - intros H. by apply occurs_nil in H.
Qed.

(** The index [1] of [s.split(sep, 1)] exists wherever the source takes it. *)
Lemma after_sep_guard sep s p :
  startswith s (p ++ sep) = true → is_Some (split_once sep s !! 1%nat).
Proof.
  intros [rest Hr]%startswith_iff. unfold split_once.
  destruct (find sep s) as [i|] eqn:Hf; [by eexists|].
  apply find_None in Hf. exfalso. apply Hf. exists p, rest.
  by rewrite Hr, <- (assoc_L (++)).
Qed.

Lemma lower_eq_sign s : 61 ∈ lower s → 61 ∈ s.
Proof.
  unfold lower. intros (c & Hc & Hin)%list_elem_of_bind.
  assert (c = 61) as <-; [|done].
  unfold lower_cp in Hc.
  destruct ((65 <=? c) && (c <=? 90)) eqn:Hup.
  - apply andb_true_iff in Hup as [H1%N.leb_le H2%N.leb_le].
    apply list_elem_of_singleton in Hc. lia.
  - destruct (c =? 304) eqn:H1.
    + apply elem_of_cons in Hc as [Hc|Hc%list_elem_of_singleton]; done.
    + destruct (c =? 8490) eqn:H2.
      * apply list_elem_of_singleton in Hc. done.
      * by apply list_elem_of_singleton in Hc.
Qed.

Lemma after_sep_guard_lower s p :
  startswith (lower s) (p ++ EQ) = true → is_Some (split_once EQ s !! 1%nat).
Proof.
  intros [rest Hr]%startswith_iff.
  assert (61 ∈ s) as Hin.
  { apply lower_eq_sign. rewrite Hr. change EQ with [61].
    apply elem_of_app. left. apply elem_of_app. right.
    by apply list_elem_of_singleton. }
  apply list_elem_of_split in Hin as (a & b & ->).
  apply (after_sep_guard EQ _ a), startswith_iff. exists b.
  by rewrite <- (assoc_L (++)).
Qed.

(** One option segment without ["||"] keeps the reply text without ["||"]. *)
Lemma apply_option_no_bar st opt :
  ¬ occurs BAR2 opt → ¬ occurs BAR2 st.2 → ¬ occurs BAR2 (apply_option st opt).2.
Proof.
  intros Hopt Hst.
  assert (∀ sep, ¬ occurs BAR2 (strip (after_sep sep (strip opt)))) as Hafter.
  { intros sep H. apply Hopt.
    by apply occurs_strip, (occurs_after_sep _ sep), occurs_strip. }
  assert (¬ occurs BAR2 (strip opt)) as Hstrip.
  { intros H. by apply Hopt, occurs_strip. }
  unfold apply_option.
  repeat match goal with
         | |- context [if ?b then _ else _] => destruct b
         end; simpl; auto.
Qed.

Lemma foldl_apply_option_no_bar opts st :
  Forall (λ opt, ¬ occurs BAR2 opt) opts →
  ¬ occurs BAR2 st.2 → ¬ occurs BAR2 (foldl apply_option st opts).2.
Proof.
  intros Hopts. revert st.
  induction Hopts as [|opt opts Hopt _ IH]; intros st Hst; simpl; [done|].
  by apply IH, apply_option_no_bar.
Qed.

Lemma parts_no_bar line :
  Forall (λ part, ¬ occurs BAR2 part)
    (filter (λ part, part ≠ []) (strip <$> split BAR2 line)).
Proof.
  apply Forall_forall. intros part [_ Hin]%list_elem_of_filter.
  apply list_elem_of_fmap in Hin as (piece & -> & Hin).
  intros H%occurs_strip. by apply (split_pieces BAR2 line piece).
Qed.

(** The reply text of a parsed line never contains ["||"]. *)
Lemma parse_line_reply_text_no_bar line e :
  _parse_mapping_line line = Some e → ¬ occurs BAR2 (reply_text e).
Proof.
  unfold _parse_mapping_line. case_bool_decide; [done|].
  pose proof (parts_no_bar line) as Hparts.
  destruct (filter _ _) as [|mapping_part opts]; [done|].
  apply Forall_cons in Hparts as [_ Hopts].
  destruct (match cut_at ARROW mapping_part with
            | Some p => Some p
            | None => cut_at DASH_ARROW mapping_part
            end) as [[t a]|]; [|done].
  destruct (_ || _); [done|]. intros [= <-]. simpl.
  apply foldl_apply_option_no_bar; [done|]. simpl.
  by apply occurs_nil.
Qed.

(** A parsed line has a non-empty alias and a non-empty target. *)
Lemma parse_line_well_formed line e :
  _parse_mapping_line line = Some e → well_formed e.
Proof.
  unfold _parse_mapping_line, well_formed. case_bool_decide; [done|].
  destruct (filter _ _) as [|mapping_part opts]; [done|].
  destruct (match cut_at ARROW mapping_part with
            | Some p => Some p
            | None => cut_at DASH_ARROW mapping_part
            end) as [[t a]|]; [|done].
  destruct (_ || _) eqn:Hb; [done|]. intros [= <-]. simpl.
  apply orb_false_iff in Hb as [H1%bool_decide_eq_false H2%bool_decide_eq_false].
  done.
Qed.

Lemma config_well_formed command alias_text silent text e :
  _build_mapping_from_config command alias_text silent text = Some e →
  well_formed e.
Proof.
  unfold _build_mapping_from_config, well_formed.
  destruct (_ || _) eqn:Hb; [done|]. intros [= <-]. simpl.
  apply orb_false_iff in Hb as [H1%bool_decide_eq_false H2%bool_decide_eq_false].
  done.
Qed.

(** ** [split] behind the last separator *)

Lemma find_nil sep : sep ≠ [] → find sep [] = None.
Proof. by destruct sep. Qed.

Lemma find_Some_le sep s i : find sep s = Some i → (i + length sep ≤ length s)%nat.
Proof.
  revert i. induction s as [|c s IH]; intros i.
  - simpl. destruct (startswith [] sep) eqn:Hs; [|done].
    intros [= <-]. by apply startswith_nil_l in Hs as ->.
  - rewrite find_cons. destruct (startswith (c :: s) sep) eqn:Hs.
    + intros [= <-]. apply startswith_iff in Hs as [rest Hr].
      rewrite Hr, length_app. lia.
    + destruct (find sep s) as [j|]; [|done]. intros [= <-].
      specialize (IH j eq_refl). simpl. lia.
Qed.

Lemma startswith_app_fits t b p :
  (length p ≤ length t)%nat → startswith (t ++ b) p = startswith t p.
Proof.
  revert t. induction p as [|x p IH]; intros t Hlen; [done|].
  destruct t as [|c t]; simpl in *; [lia|].
  rewrite IH by lia. done.
Qed.

(** The leftmost occurrence in [a] is the leftmost one in [a ++ b]. *)
Lemma find_app_l sep a b i : find sep a = Some i → find sep (a ++ b) = Some i.
Proof.
  revert i. induction a as [|c a IH]; intros i.
  - simpl. destruct (startswith [] sep) eqn:Hs; [|done].
    intros [= <-]. apply startswith_nil_l in Hs as ->. by destruct b.
  - rewrite <- app_comm_cons, !find_cons.
    destruct (startswith (c :: a) sep) eqn:Hs.
    + intros [= <-]. apply startswith_iff in Hs as [rest Hr].
      rewrite app_comm_cons, Hr, <- (assoc_L (++)), startswith_app. done.
    + destruct (find sep a) as [j|] eqn:Hf; [|done]. intros [= <-].
      pose proof (find_Some_le _ _ _ Hf) as Hle.
      rewrite app_comm_cons, startswith_app_fits, Hs by (simpl; lia).
      by rewrite (IH j).
Qed.

(** A doubled code point that does not occur in [a], behind an [a] that
    does not end in that code point, is found right behind [a]. *)
Lemma find_same_app x a b :
  find [x; x] a = None → last a ≠ Some x →
  find [x; x] (a ++ [x; x] ++ b) = Some (length a).
Proof.
  induction a as [|c a IH]; intros Ha Hlast.
  - simpl. by rewrite !N.eqb_refl.
  - rewrite find_cons in Ha.
    destruct (startswith (c :: a) [x; x]) eqn:Hs; [done|].
    apply fmap_None in Ha. rewrite <- app_comm_cons, find_cons.
    assert (startswith (c :: (a ++ [x; x] ++ b)) [x; x] = false) as ->.
    { destruct a as [|d a]; simpl in *; [|done].
      apply andb_false_iff. left. apply N.eqb_neq. by intros ->. }
    rewrite IH; [done|done|]. destruct a; [done|]. by rewrite last_cons_cons in Hlast.
Qed.

(** With enough fuel, the fuel does not matter. *)
Lemma split_fuel_enough sep s f1 f2 :
  sep ≠ [] → (length s ≤ f1)%nat → (length s ≤ f2)%nat →
  split_fuel f1 sep s = split_fuel f2 sep s.
Proof.
  intros Hsep. revert s f2. induction f1 as [|f1 IH]; intros s f2 H1 H2.
  - destruct s; [|simpl in H1; lia].
    rewrite !split_fuel_absent by (by apply find_nil). done.
  - destruct (find sep s) as [i|] eqn:Hf.
    + pose proof (find_Some_le _ _ _ Hf) as Hle.
      assert (length sep ≠ 0%nat) as Hlen by (by destruct sep).
      destruct f2 as [|f2]; [lia|]. simpl. rewrite Hf. f_equal.
      apply IH; rewrite length_drop; lia.
    + by rewrite !split_fuel_absent.
Qed.

Lemma split_step sep s i :
  sep ≠ [] → find sep s = Some i →
  split sep s = take i s :: split sep (drop (i + length sep) s).
Proof.
  intros Hsep Hf. unfold split.
  pose proof (find_Some_le _ _ _ Hf) as Hle.
  assert (length sep ≠ 0%nat) as Hlen by (by destruct sep).
  destruct (length s) as [|n] eqn:Hn; [lia|]. simpl. rewrite Hf. f_equal.
  apply split_fuel_enough; [done| |done]. rewrite length_drop. lia.
Qed.

Lemma last_drop_ne {A} (l : list A) (n : nat) (x : A) :
  last l ≠ Some x → last (drop n l) ≠ Some x.
Proof.
  intros Hl Hd. apply Hl. rewrite <- (take_drop n l), last_app. by rewrite Hd.
Qed.

(** Behind an [a] that does not end in ["|"], a ["||"] is a cut of its own. *)
Lemma split_app_bar a b :
  last a ≠ Some 124 →
  split BAR2 (a ++ BAR2 ++ b) = split BAR2 a ++ split BAR2 b.
Proof.
  remember (length a) as n eqn:Hn. revert a Hn.
  induction (lt_wf n) as [n _ IH]. intros a -> Hlast.
  destruct (find BAR2 a) as [i|] eqn:Hf.
  - pose proof (find_Some_le _ _ _ Hf) as Hle. change (length BAR2) with 2%nat in Hle.
    rewrite (split_step BAR2 (a ++ BAR2 ++ b) i) by (done || by apply find_app_l).
    rewrite (split_step BAR2 a i) by done.
    change (length BAR2) with 2%nat.
    rewrite take_app_le, drop_app_le by lia. simpl. f_equal.
    apply (IH (length (drop (i + 2) a))); [|done|by apply last_drop_ne].
    rewrite length_drop. lia.
  - rewrite (split_step BAR2 (a ++ BAR2 ++ b) (length a)).
    2: done.
    2: { change BAR2 with [124; 124]. by apply find_same_app. }
    rewrite take_app_length, <- drop_drop, drop_app_length.
    change (drop (length BAR2) (BAR2 ++ b)) with b.
    unfold split at 2. by rewrite split_fuel_absent.
Qed.

(** The option [reply=] with nothing behind it sets the mode [custom]. *)
Lemma apply_option_reply_empty st : apply_option st (lit "reply=") = (CUSTOM, []).
Proof. reflexivity. Qed.

(** A synthesized record line without reply text: whatever the parser makes
    of it has the mode [custom] and an empty reply text. *)
Lemma record_line_empty_reply command_str alias_str mode e :
  _parse_mapping_line (record_line command_str alias_str mode []) = Some e →
  reply_mode e = CUSTOM ∧ reply_text e = [].
Proof.
  set (pre := command_str ++ lit " => " ++ alias_str ++ lit " || reply_mode=" ++ mode).
  assert (record_line command_str alias_str mode []
          = (pre ++ [32]) ++ BAR2 ++ lit " reply=") as ->.
  { unfold record_line, pre. rewrite app_nil_r, <- !(assoc_L (++)). done. }
  unfold _parse_mapping_line. case_bool_decide; [done|].
  rewrite split_app_bar by (by rewrite last_snoc).
  rewrite fmap_app, filter_app.
  change (filter (λ part, part ≠ []) (strip <$> split BAR2 (lit " reply=")))
    with [lit "reply="].
  destruct (filter _ (strip <$> split BAR2 (pre ++ [32]))) as [|mapping_part opts].
  - done.
  - rewrite <- app_comm_cons. cbv beta iota.
    destruct (match cut_at ARROW mapping_part with
              | Some p => Some p
              | None => cut_at DASH_ARROW mapping_part
              end) as [[t a]|]; [|done].
    destruct (_ || _); [done|]. intros [= <-]. simpl.
    by rewrite foldl_app.
Qed.

End parser_facts.

(** * Facts about the matcher *)

Section matcher_facts.
Implicit Types (msg m : pystr) (prefixes : list pystr) (e : MappingEntry)
  (ev : AstrMessageEvent).

(** A normalized text does not begin with white space. *)
Lemma normalize_head m :
  _normalize_text m = []
  ∨ ∃ c r, _normalize_text m = c :: r ∧ isspace c = false.
Proof.
  unfold _normalize_text.
  destruct (strip_head m) as [->|(c & r & -> & Hc)]; [by left|].
  right. exists c, (collapse_ws false r). simpl. by rewrite Hc.
Qed.

Lemma normalize_no_leading_space m :
  startswith (_normalize_text m) (lit " ") = false.
Proof.
  destruct (normalize_head m) as [->|(c & r & -> & Hc)]; [done|].
  change (lit " ") with [32]. simpl.
  destruct (N.eqb_spec c 32) as [->|]; [done|done].
Qed.

(** On a normalized non-empty message, the test of the loop (alias not
    empty, and message equal to the alias or beginning with the alias and a
    space) is the alias condition alone. *)
Lemma loop_test m prefixes e :
  _normalize_text m ≠ [] →
  negb (bool_decide (alias_norm_of prefixes e = []))
  && (bool_decide (_normalize_text m = alias_norm_of prefixes e)
      || startswith (_normalize_text m) (alias_norm_of prefixes e ++ lit " "))
  = alias_matches prefixes (_normalize_text m) e.
Proof.
  intros Hmsg. unfold alias_matches.
  case_bool_decide as Ha; simpl; [|done].
  rewrite Ha. change ([] ++ lit " ") with (lit " ").
  rewrite normalize_no_leading_space.
  by rewrite bool_decide_eq_false_2.
Qed.

Lemma apply_loop_skip m prefixes ev e rest :
  _normalize_text m ≠ [] →
  selects prefixes (_normalize_text m) e = false →
  apply_loop prefixes (_normalize_text m) ev (e :: rest)
  = apply_loop prefixes (_normalize_text m) ev rest.
Proof.
  intros Hmsg Hsel. unfold selects in Hsel.
  rewrite <- (loop_test m prefixes e Hmsg) in Hsel.
  fold (alias_norm_of prefixes e) in *. simpl.
  fold (alias_norm_of prefixes e) (target_norm_of prefixes e).
  destruct (bool_decide (alias_norm_of prefixes e = [])); [done|].
  simpl in Hsel.
  destruct (_ || _); [|done]. simpl in Hsel.
  destruct (bool_decide (target_norm_of prefixes e = [])); done.
Qed.

Lemma apply_loop_hit m prefixes ev e rest :
  _normalize_text m ≠ [] →
  selects prefixes (_normalize_text m) e = true →
  apply_loop prefixes (_normalize_text m) ev (e :: rest)
  = (true, rewrite_event ev e (alias_norm_of prefixes e)
             (target_norm_of prefixes e)
             (rewritten prefixes (_normalize_text m) e)).
Proof.
  intros Hmsg Hsel. unfold selects in Hsel.
  rewrite <- (loop_test m prefixes e Hmsg) in Hsel.
  unfold rewritten. simpl.
  fold (alias_norm_of prefixes e) (target_norm_of prefixes e).
  destruct (bool_decide (alias_norm_of prefixes e = [])); [done|].
  simpl in Hsel.
  destruct (_ || _); [|done]. simpl in Hsel.
  destruct (bool_decide (target_norm_of prefixes e = [])); done.
Qed.

Lemma apply_loop_none m prefixes ev entries :
  _normalize_text m ≠ [] →
  Forall (λ e, selects prefixes (_normalize_text m) e = false) entries →
  apply_loop prefixes (_normalize_text m) ev entries = (false, ev).
Proof.
  intros Hmsg. induction 1 as [|e rest He _ IH]; [done|].
  by rewrite apply_loop_skip.
Qed.

Lemma apply_loop_first m prefixes ev l1 e l2 :
  _normalize_text m ≠ [] →
  Forall (λ e', selects prefixes (_normalize_text m) e' = false) l1 →
  selects prefixes (_normalize_text m) e = true →
  apply_loop prefixes (_normalize_text m) ev (l1 ++ e :: l2)
  = (true, rewrite_event ev e (alias_norm_of prefixes e)
             (target_norm_of prefixes e)
             (rewritten prefixes (_normalize_text m) e)).
Proof.
  intros Hmsg Hl1 He. induction Hl1 as [|e' l1 He' _ IH]; simpl app.
  - by apply apply_loop_hit.
  - by rewrite apply_loop_skip.
Qed.

(** What the loop returns, read backwards. *)
Lemma apply_loop_inv m prefixes ev entries b ev' :
  _normalize_text m ≠ [] →
  apply_loop prefixes (_normalize_text m) ev entries = (b, ev') →
  (b = false ∧ ev' = ev
   ∧ Forall (λ e, selects prefixes (_normalize_text m) e = false) entries)
  ∨ (b = true ∧ ∃ l1 e l2,
       entries = l1 ++ e :: l2
       ∧ Forall (λ e', selects prefixes (_normalize_text m) e' = false) l1
       ∧ selects prefixes (_normalize_text m) e = true
       ∧ ev' = rewrite_event ev e (alias_norm_of prefixes e)
                 (target_norm_of prefixes e)
                 (rewritten prefixes (_normalize_text m) e)).
Proof.
  intros Hmsg. induction entries as [|e rest IH].
  - intros [= <- <-]. left. by repeat split.
  - destruct (selects prefixes (_normalize_text m) e) eqn:Hsel.
    + rewrite apply_loop_hit by done. intros [= <- <-]. right.
      split; [done|]. exists [], e, rest. by repeat split.
    + rewrite apply_loop_skip by done. intros H.
      destruct (IH H) as [(-> & -> & Hall)|(-> & l1 & e0 & l2 & -> & Hl1 & He0 & ->)].
      * left. repeat split; [done..|]. by constructor.
      * right. split; [done|]. exists (e :: l1), e0, l2.
        split_and!; try done. by constructor.
Qed.

Lemma rewrite_event_message ev e a t new_msg :
  message_str (rewrite_event ev e a t new_msg) = new_msg.
Proof.
  unfold rewrite_event. case_bool_decide as H; simpl in *; [done|].
  done.
Qed.

(** The alias condition is a word boundary. *)
Lemma alias_matches_inv prefixes msg e :
  alias_matches prefixes msg e = true →
  msg = alias_norm_of prefixes e
  ∨ ∃ rest, msg = alias_norm_of prefixes e ++ lit " " ++ rest.
Proof.
  unfold alias_matches.
  intros [H%bool_decide_eq_true|H%startswith_iff]%orb_true_iff; [by left|].
  right. destruct H as [rest ->]. exists rest. by rewrite <- (assoc_L (++)).
Qed.

Lemma alias_no_boundary prefixes msg e x rest :
  msg = alias_norm_of prefixes e ++ x :: rest → x ≠ 32 →
  alias_matches prefixes msg e = false.
Proof.
  intros -> Hx. apply not_true_is_false.
  intros [H|[rest' H]]%alias_matches_inv.
  - rewrite <- (app_nil_r (alias_norm_of prefixes e)) in H at 2.
    by apply app_inv_head in H.
  - apply app_inv_head in H. by injection H.
Qed.

End matcher_facts.

(** * The inline DSL line *)

Section inline_line.

(** C1, as the code has it: a line [A => B] without option segments, whose
    sides are not blank, is parsed to the entry whose target is the trimmed
    left side [A] and whose alias is the trimmed right side [B], with
    [reply_mode = "keep"] and no reply text.  [A] and [B] are the two sides
    as written, with whatever white space surrounds them. *)
Theorem parse_arrow_line (A B : pystr) :
  contains ARROW A = false →
  contains BAR2 (A ++ ARROW ++ B) = false →
  strip A ≠ [] → strip B ≠ [] →
  _parse_mapping_line (A ++ ARROW ++ B)
  = Some {| alias_raw := strip B; target_raw := strip A;
            reply_mode := KEEP; reply_text := [] |}.
Proof.
  intros HA Hbar HsA HsB.
  assert (blank A = false) as HbA.
  { destruct (blank A) eqn:E; [|done]. by apply strip_nil in E. }
  assert (blank B = false) as HbB.
  { destruct (blank B) eqn:E; [|done]. by apply strip_nil in E. }
  assert (strip (A ++ ARROW ++ B) = lstrip A ++ ARROW ++ rstrip B) as Hline.
  { unfold strip. rewrite lstrip_app by done.
    rewrite (assoc_L (++)), rstrip_app by done.
    by rewrite <- (assoc_L (++)). }
  assert (find ARROW (lstrip A) = None) as Hfind.
  { apply find_None. intros Ho. apply contains_false in HA. apply HA.
    destruct (lstrip_suffix A) as [w Hw]. rewrite Hw. by apply occurs_suffix. }
  assert (lstrip A ≠ []) as HlA.
  { intros H. apply lstrip_nil in H. congruence. }
  unfold _parse_mapping_line.
  rewrite bool_decide_eq_false_2.
  2: { change ARROW with [61; 62]. by destruct A. }
  unfold split. rewrite split_fuel_absent.
  2: { unfold contains in Hbar. by destruct (find BAR2 _). }
  cbn [fmap list_fmap]. rewrite Hline.
  rewrite filter_cons_True by (by destruct (lstrip A)).
  rewrite filter_nil. unfold cut_at. change ARROW with [61; 62].
  rewrite find_two_app by done.
  rewrite take_app_length, <- drop_drop, drop_app_length.
  cbn [length drop app]. rewrite drop_0, strip_lstrip, strip_rstrip.
  rewrite !bool_decide_eq_false_2 by done. done.
Qed.

(** The spaced form, on the left side [/new ] and the right side [ /n]. *)
Lemma parse_arrow_line_witness :
  _parse_mapping_line (lit "/new => /n") = Some (entry_of "/n" "/new" "keep" "").
Proof.
  apply (parse_arrow_line (lit "/new ") (lit " /n")); [reflexivity..|done|done].
Defined.

(** C1 as stated fails: the left side of [A => B] becomes the target, not
    the alias. *)
Lemma parse_arrow_line_sides_swapped :
  ¬ ∃ e, _parse_mapping_line (lit "A => B") = Some e
         ∧ alias_raw e = lit "A" ∧ target_raw e = lit "B"
         ∧ reply_mode e = lit "keep".
Proof. intros (e & [= <-] & Halias & _). discriminate Halias. Qed.

End inline_line.

(** * The matcher *)

Section matcher.

(** C2, as the code has it: on a normalized non-empty message the matcher
    takes the first entry in store order whose alias condition holds (the
    message is the alias, or the alias followed by a space) and whose
    normalized, wake-prefix-stripped target is not empty, and rewrites the
    event with that entry, whatever follows it in the store; with no such
    entry it reports "no match".  The alias condition is a word boundary: a
    message that continues the alias with anything but a space, like
    ["/rx"] for the alias ["/r"], does not satisfy it. *)
Theorem matcher_first_match (STATE : _State) (ev : AstrMessageEvent)
    (cfg : AstrBotConfig) :
  enabled STATE = true →
  py_bool (get_extra ev K_APPLIED VFalse) = false →
  is_at_or_wake_command ev = true →
  _normalize_text (message_str ev) ≠ [] →
  let msg := _normalize_text (message_str ev) in
  let prefixes := _get_wake_prefixes cfg in
  (∀ l1 e l2,
      mappings STATE = l1 ++ e :: l2 →
      Forall (λ e', selects prefixes msg e' = false) l1 →
      selects prefixes msg e = true →
      _apply_mapping STATE ev cfg
      = (true, rewrite_event ev e (alias_norm_of prefixes e)
                 (target_norm_of prefixes e) (rewritten prefixes msg e)))
  ∧ (Forall (λ e', selects prefixes msg e' = false) (mappings STATE) →
     _apply_mapping STATE ev cfg = (false, ev))
  ∧ (∀ e, alias_matches prefixes msg e = true →
       msg = alias_norm_of prefixes e
       ∨ ∃ rest, msg = alias_norm_of prefixes e ++ lit " " ++ rest)
  ∧ (∀ e x rest, msg = alias_norm_of prefixes e ++ x :: rest → x ≠ 32 →
       alias_matches prefixes msg e = false)
  ∧ alias_matches [] (lit "/rx") (entry_of "/r" "/reset" "keep" "") = false.
Proof.
  intros Hen Happ Hwake Hmsg msg prefixes.
  assert (∀ entries, entries ≠ [] → mappings STATE = entries →
            _apply_mapping STATE ev cfg = apply_loop prefixes msg ev entries)
    as Hloop.
  { intros entries Hne <-. unfold _apply_mapping.
    rewrite Hen, Happ, Hwake. simpl.
    by rewrite !bool_decide_eq_false_2. }
  split_and!.
  - intros l1 e l2 Heq Hl1 He. rewrite (Hloop (l1 ++ e :: l2)); [|by destruct l1|done].
    by apply apply_loop_first.
  - intros Hall. destruct (mappings STATE) as [|e rest] eqn:Hm.
    + unfold _apply_mapping. rewrite Hm, Hen. done.
    + rewrite (Hloop (e :: rest)); [|done..]. by apply apply_loop_none.
  - apply alias_matches_inv.
  - intros e x rest. apply alias_no_boundary.
  - reflexivity.
Qed.

(** With the rules ["/r"] and ["/r2"] in that order, ["/r2 x"] passes the
    first and is rewritten by the second. *)
Lemma matcher_first_match_witness :
  _apply_mapping store_r_r2 (fresh_event "/r2 x") ∅
  = (true, rewrite_event (fresh_event "/r2 x")
             (entry_of "/r2" "/reload" "keep" "")
             (lit "/r2") (lit "/reload") (lit "/reload x")).
Proof.
  refine (proj1 (matcher_first_match store_r_r2 (fresh_event "/r2 x") ∅
                   eq_refl eq_refl eq_refl _)
            [entry_of "/r" "/reset" "keep" ""]
            (entry_of "/r2" "/reload" "keep" "") [] eq_refl _ eq_refl).
  - vm_compute. discriminate.
  - apply Forall_cons. split; [reflexivity | apply Forall_nil_2].
Defined.

(** C2 as stated fails: with the wake prefix ["/"], the first rule whose
    alias condition holds for ["r"] has a target that normalizes to the
    empty string; the matcher passes it and takes the second rule. *)
Lemma matcher_skips_empty_target :
  mappings store_r_twice !! 0%nat = Some (entry_of "/r" "/" "custom" "first")
  ∧ alias_matches (_get_wake_prefixes cfg_slash)
      (_normalize_text (message_str (fresh_event "r")))
      (entry_of "/r" "/" "custom" "first") = true
  ∧ (_apply_mapping store_r_twice (fresh_event "r") cfg_slash).1 = true
  ∧ get_extra (_apply_mapping store_r_twice (fresh_event "r") cfg_slash).2
      K_REPLY_TEXT VNone
    = VStr (lit "second")
  ∧ message_str (_apply_mapping store_r_twice (fresh_event "r") cfg_slash).2
    = lit "reset".
Proof. vm_compute. done. Qed.

(** C3: when the matcher rewrites an event that was not yet annotated, the
    entry it took is in the store, and the new message text is the
    normalized wake-stripped target alone if the trimmed remainder of the
    message behind the alias is empty, and the target, a space and that
    remainder otherwise.  With ["/new"] mapped to ["/reset"],
    ["/new session1"] becomes ["/reset session1"] and ["/new"] becomes
    ["/reset"]. *)
Theorem rewritten_message :
  (∀ (STATE : _State) (ev ev' : AstrMessageEvent) (cfg : AstrBotConfig),
     py_bool (get_extra ev K_APPLIED VFalse) = false →
     _apply_mapping STATE ev cfg = (true, ev') →
     let msg := _normalize_text (message_str ev) in
     let prefixes := _get_wake_prefixes cfg in
     ∃ e, e ∈ mappings STATE
          ∧ selects prefixes msg e = true
          ∧ let target := target_norm_of prefixes e in
            let suffix := strip (drop (length (alias_norm_of prefixes e)) msg) in
            (suffix = [] → message_str ev' = target)
            ∧ (suffix ≠ [] → message_str ev' = target ++ lit " " ++ suffix))
  ∧ message_str (_apply_mapping store_new_reset (fresh_event "/new session1") ∅).2
    = lit "/reset session1"
  ∧ message_str (_apply_mapping store_new_reset (fresh_event "/new") ∅).2
    = lit "/reset".
Proof.
  split; [|split; reflexivity].
  intros STATE ev ev' cfg Happ. unfold _apply_mapping. rewrite Happ.
  destruct (negb (enabled STATE) || _); [done|].
  destruct (negb (is_at_or_wake_command ev)); [done|].
  case_bool_decide as Hmsg; [done|]. intros Hloop. simpl.
  apply apply_loop_inv in Hloop; [|done].
  destruct Hloop as [(? & _)|(_ & l1 & e & l2 & Hm & _ & He & ->)]; [done|].
  exists e. split_and!.
  - rewrite Hm. apply elem_of_app. right. by left.
  - done.
  - intros Hs. rewrite rewrite_event_message. unfold rewritten.
    by rewrite bool_decide_eq_true_2.
  - intros Hs. rewrite rewrite_event_message. unfold rewritten.
    by rewrite bool_decide_eq_false_2.
Qed.

Lemma rewritten_message_witness :
  ∃ e, e ∈ mappings store_new_reset
       ∧ message_str (_apply_mapping store_new_reset
                        (fresh_event "/new  session1") ∅).2
         = target_norm_of [] e ++ lit " " ++ lit "session1".
Proof.
  assert (_apply_mapping store_new_reset (fresh_event "/new  session1") ∅
          = (true, (_apply_mapping store_new_reset
                      (fresh_event "/new  session1") ∅).2)) as Hrun
    by (vm_compute; reflexivity).
  destruct (proj1 rewritten_message store_new_reset
              (fresh_event "/new  session1") _ ∅ eq_refl Hrun)
    as (e & Hin & Hsel & _ & Hrew).
  exists e. split; [exact Hin|].
  apply list_elem_of_singleton in Hin. subst e.
  apply Hrew. vm_compute. discriminate.
Defined.

(** C6, as the code has it: on an event already annotated as processed the
    matcher leaves the event as it is; it reports "no match" only when the
    store is disabled or empty, and otherwise reports a match. *)
Theorem already_applied (STATE : _State) (ev : AstrMessageEvent)
    (cfg : AstrBotConfig) :
  py_bool (get_extra ev K_APPLIED VFalse) = true →
  _apply_mapping STATE ev cfg
  = (enabled STATE && negb (bool_decide (mappings STATE = [])), ev).
Proof.
  intros Happ. unfold _apply_mapping. rewrite Happ.
  destruct (enabled STATE); simpl; [|done].
  by destruct (bool_decide (mappings STATE = [])).
Qed.

Lemma already_applied_witness :
  _apply_mapping store_new_reset (applied_event "keep" "") ∅
  = (true, applied_event "keep" "").
Proof. apply (already_applied store_new_reset (applied_event "keep" "") ∅). reflexivity. Defined.

(** C6 as stated fails: with a live store the matcher answers [True] for an
    event that is already annotated. *)
Lemma already_applied_reports_match :
  py_bool (get_extra (applied_event "keep" "") K_APPLIED VFalse) = true
  ∧ (_apply_mapping store_new_reset (applied_event "keep" "") ∅).1 ≠ false.
Proof. split; [reflexivity | vm_compute; discriminate]. Qed.

(** C7: whenever the matcher reports "no match" the event is returned as it
    was, message text and annotations included.  A disabled store, an empty
    store, an empty normalized message and a store in which no entry's alias
    condition holds are such cases (the last two for an event that is not yet
    annotated). *)
Theorem no_match_frame (STATE : _State) (ev : AstrMessageEvent)
    (cfg : AstrBotConfig) :
  (∀ ev', _apply_mapping STATE ev cfg = (false, ev') → ev' = ev)
  ∧ (enabled STATE = false → _apply_mapping STATE ev cfg = (false, ev))
  ∧ (mappings STATE = [] → _apply_mapping STATE ev cfg = (false, ev))
  ∧ (py_bool (get_extra ev K_APPLIED VFalse) = false →
     _normalize_text (message_str ev) = [] →
     _apply_mapping STATE ev cfg = (false, ev))
  ∧ (py_bool (get_extra ev K_APPLIED VFalse) = false →
     Forall (λ e, alias_matches (_get_wake_prefixes cfg)
                    (_normalize_text (message_str ev)) e = false)
       (mappings STATE) →
     _apply_mapping STATE ev cfg = (false, ev)).
Proof.
  split_and!.
  - intros ev'. unfold _apply_mapping.
    destruct (negb (enabled STATE) || _); [by intros [= <-]|].
    destruct (py_bool _); [done|].
    destruct (negb (is_at_or_wake_command ev)); [by intros [= <-]|].
    case_bool_decide as Hmsg; [by intros [= <-]|]. intros Hloop.
    apply apply_loop_inv in Hloop; [|done].
    by destruct Hloop as [(_ & -> & _)|(? & _)].
  - intros Hen. unfold _apply_mapping. by rewrite Hen.
  - intros Hm. unfold _apply_mapping. rewrite Hm.
    by rewrite bool_decide_eq_true_2, orb_true_r.
  - intros Happ Hmsg. unfold _apply_mapping. rewrite Happ, Hmsg.
    destruct (negb (enabled STATE) || _); [done|].
    by destruct (negb (is_at_or_wake_command ev)).
  - intros Happ Hall. unfold _apply_mapping. rewrite Happ.
    destruct (negb (enabled STATE) || _); [done|].
    destruct (negb (is_at_or_wake_command ev)); [done|].
    case_bool_decide as Hmsg; [done|].
    apply apply_loop_none; [done|].
    eapply Forall_impl; [exact Hall|]. intros e He. unfold selects.
    by rewrite He.
Qed.

Lemma no_match_frame_witness :
  _apply_mapping store_new_reset (fresh_event "/newx") ∅
  = (false, fresh_event "/newx").
Proof.
  apply (proj2 (proj2 (proj2 (proj2
           (no_match_frame store_new_reset (fresh_event "/newx") ∅))))).
  - reflexivity.
  - apply Forall_cons. split; [reflexivity | apply Forall_nil_2].
Defined.

End matcher.

(** * The reply policy *)

Section reply_policy.

(** C4: the reply hook leaves an event that is not annotated as applied as
    it is; on an applied event, mode [keep] leaves the event (and so the
    reply) as it is, mode [silent] sets an empty result whatever the reply
    text, and mode [custom] sets an empty result when the recorded reply text
    is empty or blank and a plain-text result with exactly the recorded text
    otherwise. *)
Theorem override_reply_policy (ev : AstrMessageEvent) :
  (py_bool (get_extra ev K_APPLIED VFalse) = false → _override_reply ev = ev)
  ∧ (py_bool (get_extra ev K_APPLIED VFalse) = true →
     get_extra ev K_REPLY_MODE (VStr KEEP) = VStr KEEP →
     _override_reply ev = ev)
  ∧ (py_bool (get_extra ev K_APPLIED VFalse) = true →
     get_extra ev K_REPLY_MODE (VStr KEEP) = VStr SILENT →
     _override_reply ev = set_result ev make_result)
  ∧ (∀ text,
       py_bool (get_extra ev K_APPLIED VFalse) = true →
       get_extra ev K_REPLY_MODE (VStr KEEP) = VStr CUSTOM →
       get_extra ev K_REPLY_TEXT (VStr []) = VStr text →
       strip text = [] →
       _override_reply ev = set_result ev make_result)
  ∧ (∀ text,
       py_bool (get_extra ev K_APPLIED VFalse) = true →
       get_extra ev K_REPLY_MODE (VStr KEEP) = VStr CUSTOM →
       get_extra ev K_REPLY_TEXT (VStr []) = VStr text →
       strip text ≠ [] →
       _override_reply ev = set_result ev (plain_result text)).
Proof.
  unfold _override_reply. split_and!.
  - by intros ->.
  - by intros -> ->.
  - by intros -> ->.
  - intros text -> -> -> Hblank. simpl.
    rewrite (bool_decide_eq_true_2 _ Hblank). by rewrite orb_true_r.
  - intros text -> -> -> Hblank. simpl.
    rewrite !(bool_decide_eq_false_2 (strip text = [])) by done.
    rewrite bool_decide_eq_false_2; [done|]. by intros ->.
Qed.

(** A recorded reply text ["done"] replaces the reply of the host. *)
Lemma override_reply_policy_witness :
  result (_override_reply (applied_event "custom" "done"))
  = Some [Plain (lit "done")].
Proof.
  rewrite (proj2 (proj2 (proj2 (proj2
             (override_reply_policy (applied_event "custom" "done")))))
             (lit "done")); [reflexivity..|].
  vm_compute. discriminate.
Defined.

End reply_policy.

(** * The structured parsers and the rule store *)

Section builders.

(** C5, what the code does: the mixed-list parser re-expresses a record as
    a line that always ends in [|| reply=<text>].  For a record without a
    reply text ([reply_text] and its localized key absent) the closing
    [reply=] option sets the mode to [custom] with an empty reply text,
    whatever came before it: no such record yields the mode [keep].  At
    [{"command": "/new", "alias": "/n"}] the line is
    [/new => /n || reply_mode=keep || reply=] and the entry has the mode
    [custom]. *)
Theorem mixed_record_without_reply :
  (∀ d e,
     d !! lit "reply_text" = None → d !! zh_reply = None →
     mixed_item (IDict d) = Some e →
     reply_mode e = CUSTOM ∧ reply_text e = [])
  ∧ record_line (lit "/new") (lit "/n") KEEP []
    = lit "/new => /n || reply_mode=keep || reply="
  ∧ _build_mappings [IDict record_new_n] = [entry_of "/n" "/new" "custom" ""].
Proof.
  split; [|split; vm_compute; reflexivity].
  intros d e H1 H2.
  assert (dict_get d (lit "reply_text") = VNone) as Hr1
    by (unfold dict_get; by rewrite H1).
  assert (dict_get d zh_reply = VNone) as Hr2
    by (unfold dict_get; by rewrite H2).
  unfold mixed_item. rewrite Hr1, Hr2.
  change (_read_text (py_or (py_or VNone VNone) (VStr []))) with (@nil N).
  destruct (_ || _); [done|]. apply record_line_empty_reply.
Qed.

Lemma mixed_record_without_reply_witness :
  reply_mode (entry_of "/n" "/new" "custom" "") = CUSTOM
  ∧ reply_text (entry_of "/n" "/new" "custom" "") = [].
Proof.
  apply (proj1 mixed_record_without_reply record_new_n); reflexivity.
Defined.

Lemma fixed_well_formed command data e :
  _build_fixed_mapping command data = Some e → well_formed e.
Proof. destruct data; simpl; [done| |done..]. apply config_well_formed. Qed.

Lemma custom_item_well_formed item e :
  custom_item item = Some e → well_formed e.
Proof. destruct item; simpl; [done| |done]. apply config_well_formed. Qed.

Lemma mixed_item_well_formed item e :
  mixed_item item = Some e → well_formed e.
Proof.
  destruct item; simpl; [apply parse_line_well_formed| |done].
  destruct (_ || _); [done|]. apply parse_line_well_formed.
Qed.

Lemma text_line_well_formed raw e : text_line raw = Some e → well_formed e.
Proof.
  unfold text_line. destruct (bool_decide _); [done|].
  destruct (_ || _); [done|]. apply parse_line_well_formed.
Qed.

Lemma opt_to_list_elem {A} (o : option A) (x : A) : x ∈ opt_to_list o → o = Some x.
Proof. destruct o; simpl; [by intros ->%list_elem_of_singleton|]. by intros ?%elem_of_nil. Qed.

(** C8: whatever a parser entry point returns has a non-empty alias and a
    non-empty target, and so has every entry of the store that
    [_load_config] builds. *)
Theorem stored_entries_well_formed :
  (∀ line e, _parse_mapping_line line = Some e → well_formed e)
  ∧ (∀ command alias_text silent text e,
       _build_mapping_from_config command alias_text silent text = Some e →
       well_formed e)
  ∧ (∀ command data e, _build_fixed_mapping command data = Some e → well_formed e)
  ∧ (∀ raw_list e, e ∈ _build_custom_mappings raw_list → well_formed e)
  ∧ (∀ text e, e ∈ _build_mappings_from_text text → well_formed e)
  ∧ (∀ raw_list e, e ∈ _build_mappings raw_list → well_formed e)
  ∧ (∀ config e, e ∈ mappings (_load_config config) → well_formed e).
Proof.
  assert (∀ raw_list e, e ∈ _build_custom_mappings raw_list → well_formed e) as Hc.
  { intros [] e; simpl; try by intros ?%elem_of_nil.
    intros (item & _ & H)%list_elem_of_omap. by eapply custom_item_well_formed. }
  assert (∀ text e, e ∈ _build_mappings_from_text text → well_formed e) as Ht.
  { intros [] e; simpl; try by intros ?%elem_of_nil.
    intros (raw & _ & H)%list_elem_of_omap. by eapply text_line_well_formed. }
  assert (∀ raw_list e, e ∈ _build_mappings raw_list → well_formed e) as Hm.
  { intros l e (item & _ & H)%list_elem_of_omap. by eapply mixed_item_well_formed. }
  split_and!; [apply parse_line_well_formed | apply config_well_formed
              | apply fixed_well_formed | exact Hc | exact Ht | exact Hm |].
  intros config e. unfold _load_config. cbn [mappings].
  rewrite !elem_of_app.
  intros [H%opt_to_list_elem|[H%opt_to_list_elem|[H|[H|H]]]];
    eauto using fixed_well_formed.
Qed.

Lemma stored_entries_well_formed_witness :
  well_formed (entry_of "/r" "/reset" "keep" "").
Proof.
  apply (proj2 (proj2 (proj2 (proj2 (proj2 (proj2
           stored_entries_well_formed))))) config_reset_r).
  vm_compute. apply list_elem_of_singleton. reflexivity.
Defined.

(** C9: the structured record [{command: "/new", alias: "/n", silent: true}]
    and the inline line [/new => /n || silent] give the same entry. *)
Theorem record_equals_inline_line :
  custom_item (IDict record_new_n_silent)
  = _parse_mapping_line (lit "/new => /n || silent")
  ∧ _build_custom_mappings (AList [IDict record_new_n_silent])
    = [entry_of "/n" "/new" "silent" ""]
  ∧ _parse_mapping_line (lit "/new => /n || silent")
    = Some (entry_of "/n" "/new" "silent" "").
Proof. split_and!; vm_compute; reflexivity. Qed.

(** C10: in the mixed-list parser the reply text of an entry built from a
    record never contains ["||"]; so the entry carries the configured reply
    text (as read from the record, or as written under [reply_text]) only
    if that text has no ["||"] in it.
    For the configured text ["hello || world"] the entry keeps the last
    fragment, ["world"]. *)
Theorem mixed_record_reply_text :
  (∀ d e, mixed_item (IDict d) = Some e → contains BAR2 (reply_text e) = false)
  ∧ (∀ d e,
       mixed_item (IDict d) = Some e →
       reply_text e
       = _read_text (py_or (py_or (dict_get d (lit "reply_text"))
                                  (dict_get d zh_reply)) (VStr [])) →
       contains BAR2
         (_read_text (py_or (py_or (dict_get d (lit "reply_text"))
                                   (dict_get d zh_reply)) (VStr [])))
       = false)
  ∧ (∀ d e t,
       mixed_item (IDict d) = Some e →
       dict_get d (lit "reply_text") = VStr t →
       reply_text e = t → contains BAR2 t = false)
  ∧ dict_get record_new_n_reply (lit "reply_text") = VStr (lit "hello || world")
  ∧ _build_mappings [IDict record_new_n_reply]
    = [entry_of "/n" "/new" "custom" "world"].
Proof.
  assert (∀ d e, mixed_item (IDict d) = Some e →
                 contains BAR2 (reply_text e) = false) as Hno.
  { intros d e. simpl. destruct (_ || _); [done|].
    intros H%parse_line_reply_text_no_bar. by apply contains_false. }
  split_and!; [exact Hno | | | vm_compute; reflexivity..].
  - intros d e He <-. by eapply Hno.
  - intros d e t He _ <-. by eapply Hno.
Qed.

Lemma mixed_record_reply_text_witness :
  contains BAR2 (lit "world") = false.
Proof.
  apply (proj1 mixed_record_reply_text record_new_n_reply
           (entry_of "/n" "/new" "custom" "world")).
  vm_compute. reflexivity.
Defined.

End builders.

(** * The text normalizer *)

Section normalizer.
Implicit Types (s t : pystr) (c : N) (b : bool).

Lemma collapse_ws_idemp s :
  collapse_ws false (collapse_ws false s) = collapse_ws false s
  ∧ collapse_ws true (collapse_ws true s) = collapse_ws true s.
Proof.
  induction s as [|c s [IHf IHt]]; [done|].
  simpl. destruct (isspace c) eqn:Hc.
  - split; [|done]. simpl. by rewrite IHt.
  - simpl. rewrite Hc. by rewrite IHf.
Qed.

Lemma collapse_ws_nil b s : collapse_ws b s = [] → blank s = true.
Proof.
  revert b. induction s as [|c s IH]; intros b; [done|].
  simpl. destruct (isspace c); [|done].
  destruct b; [|done]. apply IH.
Qed.

Lemma rstrip_fixed_inv c t :
  rstrip (c :: t) = c :: t → (t = [] ∧ isspace c = false) ∨ (t ≠ [] ∧ rstrip t = t).
Proof.
  simpl. destruct (rstrip t) as [|x r] eqn:Hr.
  - destruct (isspace c); [done|]. intros [= <-]. by left.
  - intros [= <-]. by right.
Qed.

Lemma rstrip_fixed_cons c t : t ≠ [] → rstrip t = t → rstrip (c :: t) = c :: t.
Proof. intros Ht Hr. simpl. rewrite Hr. by destruct t. Qed.

(** Collapsing white space keeps a text that does not end in white space
    free of white space at the end. *)
Lemma rstrip_collapse_ws b t :
  rstrip t = t → rstrip (collapse_ws b t) = collapse_ws b t.
Proof.
  revert b. induction t as [|c t IH]; intros b Hfix; [done|].
  destruct (rstrip_fixed_inv c t Hfix) as [[-> Hc]|[Hne Ht]].
  - simpl. by rewrite Hc.
  - assert (∀ b', collapse_ws b' t ≠ []) as Hcol.
    { intros b' H%collapse_ws_nil. apply rstrip_nil in H. congruence. }
    simpl. destruct (isspace c); [destruct b|]; auto using rstrip_fixed_cons.
Qed.

Lemma lstrip_fixed s :
  (s = [] ∨ ∃ c r, s = c :: r ∧ isspace c = false) → lstrip s = s.
Proof. intros [->|(c & r & -> & Hc)]; [done|]. simpl. by rewrite Hc. Qed.

(** X1: normalizing a normalized text changes nothing. *)
Theorem normalize_idempotent (text : pystr) :
  _normalize_text (_normalize_text text) = _normalize_text text.
Proof.
  assert (strip (_normalize_text text) = _normalize_text text) as Hstrip.
  { unfold strip. rewrite (lstrip_fixed _ (normalize_head text)).
    unfold _normalize_text. apply rstrip_collapse_ws.
    unfold strip. apply rstrip_idemp. }
  unfold _normalize_text at 1. rewrite Hstrip.
  unfold _normalize_text. apply collapse_ws_idemp.
Qed.

Lemma collapse_ws_spaces b s :
  Forall (λ c, isspace c = true → c = 32) (collapse_ws b s).
Proof.
  revert b. induction s as [|c s IH]; intros b; simpl; [constructor|].
  destruct (isspace c) eqn:Hc.
  - destruct b; [done|]. by constructor.
  - constructor; [congruence|done].
Qed.

Lemma collapse_ws_true_head s y r :
  collapse_ws true s = y :: r → isspace y = false.
Proof.
  induction s as [|c s IH]; simpl; [done|].
  destruct (isspace c) eqn:Hc; [done|]. by intros [= <- _].
Qed.

Lemma collapse_ws_no_run b s x y r1 r2 :
  collapse_ws b s = r1 ++ x :: y :: r2 → isspace x = true → isspace y = false.
Proof.
  revert b r1. induction s as [|c s IH]; intros b r1; simpl.
  - by destruct r1.
  - destruct (isspace c) eqn:Hc.
    + destruct b; [by apply IH|].
      destruct r1 as [|z r1]; simpl.
      * intros [= <- Hs] _. by apply collapse_ws_true_head in Hs.
      * intros [= <- Hs]. by apply (IH true r1).
    + destruct r1 as [|z r1]; simpl.
      * intros [= <- _]. congruence.
      * intros [= <- Hs]. by apply (IH false r1).
Qed.

(** X2: in a normalized text every white-space code point is a plain space,
    no two of them are adjacent, and none is at either end. *)
Theorem normalize_shape (text : pystr) :
  Forall (λ c, isspace c = true → c = 32) (_normalize_text text)
  ∧ (∀ r1 x y r2, _normalize_text text = r1 ++ x :: y :: r2 →
       isspace x = true → isspace y = false)
  ∧ strip (_normalize_text text) = _normalize_text text.
Proof.
  split_and!.
  - apply collapse_ws_spaces.
  - intros r1 x y r2. apply collapse_ws_no_run.
  - unfold strip. rewrite (lstrip_fixed _ (normalize_head text)).
    unfold _normalize_text. apply rstrip_collapse_ws.
    unfold strip. apply rstrip_idemp.
Qed.

Lemma normalize_shape_witness : isspace 98 = false.
Proof.
  apply (proj1 (proj2 (normalize_shape (lit "  a   b  "))) [97] 32 98 []);
    reflexivity.
Defined.

End normalizer.

(** * Wake prefixes *)

Section wake_prefixes.
Implicit Types (text p : pystr) (prefixes : list pystr) (cfg : AstrBotConfig).

(** X3: the wake prefixes read from the host configuration are non-empty
    strings; a configured [str] counts as the list of that one string; a
    missing key or a value that is neither a [str] nor a [list] gives no
    prefix. *)
Theorem wake_prefixes_read cfg :
  (∀ p, p ∈ _get_wake_prefixes cfg → p ≠ [])
  ∧ (∀ s, cfg !! lit "wake_prefix" = Some (AStr s) →
       _get_wake_prefixes cfg = if bool_decide (s = []) then [] else [s])
  ∧ (cfg !! lit "wake_prefix" = None → _get_wake_prefixes cfg = [])
  ∧ (∀ d, cfg !! lit "wake_prefix" = Some (ADict d) → _get_wake_prefixes cfg = [])
  ∧ (∀ t, cfg !! lit "wake_prefix" = Some (AOther t) → _get_wake_prefixes cfg = []).
Proof.
  unfold _get_wake_prefixes. split_and!.
  - intros p. destruct (default _ _) as [s|d|l|t]; simpl.
    + case_bool_decide; [by intros ?%elem_of_nil|].
      by intros ->%list_elem_of_singleton.
    + by intros ?%elem_of_nil.
    + intros (item & _ & H)%list_elem_of_omap. destruct item as [s| |]; [|done..].
      case_bool_decide; [done|]. by injection H as <-.
    + by intros ?%elem_of_nil.
  - intros s ->. simpl. by case_bool_decide.
  - by intros ->.
  - by intros d ->.
  - by intros t ->.
Qed.

Lemma wake_prefixes_read_witness : lit "/" ≠ [].
Proof.
  apply (proj1 (wake_prefixes_read cfg_slash) (lit "/")).
  vm_compute. apply list_elem_of_singleton. reflexivity.
Defined.

(** X4: [_strip_wake_prefix] removes the first prefix of the list that is
    not empty and begins the text, once, and trims what is left; a text that
    no prefix of the list begins is returned as it is. *)
Theorem strip_wake_prefix_first text prefixes :
  (Forall (λ p, p = [] ∨ startswith text p = false) prefixes →
   _strip_wake_prefix text prefixes = text)
  ∧ (∀ l1 p l2 rest,
       prefixes = l1 ++ p :: l2 →
       Forall (λ q, q = [] ∨ startswith text q = false) l1 →
       p ≠ [] → text = p ++ rest →
       _strip_wake_prefix text prefixes = strip rest).
Proof.
  assert (∀ l, Forall (λ q, q = [] ∨ startswith text q = false) l →
            ∀ k, _strip_wake_prefix text (l ++ k) = _strip_wake_prefix text k)
    as Hskip.
  { induction 1 as [|q l Hq _ IH]; intros k; [done|]. simpl.
    destruct Hq as [-> | Hq].
    - rewrite bool_decide_eq_true_2 by done. simpl. apply IH.
    - rewrite Hq, andb_false_r. apply IH. }
  split.
  - intros Hall. rewrite <- (app_nil_r prefixes). by rewrite Hskip.
  - intros l1 p l2 rest -> Hl1 Hp ->. rewrite (Hskip l1 Hl1). simpl.
    rewrite startswith_app, bool_decide_eq_false_2 by done. simpl.
    by rewrite drop_app_length.
Qed.

(** With the prefixes ["!"] and ["/"], one ["/"] is taken off ["// help"]. *)
Lemma strip_wake_prefix_first_witness :
  _strip_wake_prefix (lit "// help") [lit "!"; lit "/"] = lit "/ help".
Proof.
  apply (proj2 (strip_wake_prefix_first (lit "// help") [lit "!"; lit "/"])
           [lit "!"] (lit "/") [] (lit "/ help")); [reflexivity| |done|reflexivity].
  apply Forall_cons. split; [by right | apply Forall_nil_2].
Defined.

End wake_prefixes.

(** * From the matcher to the reply hook *)

Section pipeline.
Implicit Types (ev : AstrMessageEvent) (e : MappingEntry) (k : pystr).

Lemma rewrite_event_extras ev e a t m :
  extras (rewrite_event ev e a t m)
  = <[K_ORIGINAL := VStr (message_str ev)]>
      (<[K_TARGET := VStr t]>
         (<[K_ALIAS := VStr a]>
            (<[K_REPLY_TEXT := VStr (reply_text e)]>
               (<[K_REPLY_MODE := VStr (reply_mode e)]>
                  (<[K_APPLIED := VTrue]> (extras ev)))))).
Proof. unfold rewrite_event. by case_bool_decide. Qed.


Local Ltac key_ne := let H := fresh in intros H; vm_compute in H; discriminate H.

Lemma rewrite_event_get ev e a t m dflt :
  get_extra (rewrite_event ev e a t m) K_APPLIED dflt = VTrue
  ∧ get_extra (rewrite_event ev e a t m) K_REPLY_MODE dflt = VStr (reply_mode e)
  ∧ get_extra (rewrite_event ev e a t m) K_REPLY_TEXT dflt = VStr (reply_text e)
  ∧ get_extra (rewrite_event ev e a t m) K_ALIAS dflt = VStr a
  ∧ get_extra (rewrite_event ev e a t m) K_TARGET dflt = VStr t
  ∧ get_extra (rewrite_event ev e a t m) K_ORIGINAL dflt = VStr (message_str ev).
Proof.
  unfold get_extra. rewrite rewrite_event_extras.
  split_and!;
    repeat (rewrite lookup_insert_ne by key_ne); by rewrite lookup_insert_eq.
Qed.

(** What a [True] of the matcher means. *)
Lemma apply_mapping_true_inv STATE ev cfg ev' :
  _apply_mapping STATE ev cfg = (true, ev') →
  enabled STATE = true ∧ mappings STATE ≠ []
  ∧ ((py_bool (get_extra ev K_APPLIED VFalse) = true ∧ ev' = ev)
     ∨ (py_bool (get_extra ev K_APPLIED VFalse) = false
        ∧ ∃ e, e ∈ mappings STATE
               ∧ selects (_get_wake_prefixes cfg)
                   (_normalize_text (message_str ev)) e = true
               ∧ ev' = rewrite_event ev e
                         (alias_norm_of (_get_wake_prefixes cfg) e)
                         (target_norm_of (_get_wake_prefixes cfg) e)
                         (rewritten (_get_wake_prefixes cfg)
                            (_normalize_text (message_str ev)) e))).
Proof.
  unfold _apply_mapping.
  destruct (enabled STATE); [|done]. case_bool_decide as Hm; [done|]. simpl.
  destruct (py_bool _) eqn:Happ.
  - intros [= <-]. split_and!; [done..|]. by left.
  - destruct (negb (is_at_or_wake_command ev)); [done|].
    case_bool_decide as Hmsg; [done|]. intros Hloop.
    apply apply_loop_inv in Hloop; [|done].
    destruct Hloop as [(? & _)|(_ & l1 & e & l2 & Hl & _ & He & ->)]; [done|].
    split_and!; [done..|]. right. split; [done|]. exists e. split_and!; [|done..].
    rewrite Hl. apply elem_of_app. right. by left.
Qed.



(** X6: the matcher is idempotent on its own output: an event on which it
    answered [True] is returned unchanged, with [True] again, by a second
    run, so a rewritten message is never rewritten once more. *)
Theorem match_idempotent STATE ev cfg ev' :
  _apply_mapping STATE ev cfg = (true, ev') →
  _apply_mapping STATE ev' cfg = (true, ev').
Proof.
  intros Hrun.
  apply apply_mapping_true_inv in Hrun as (Hen & Hm & Hcase).
  assert (py_bool (get_extra ev' K_APPLIED VFalse) = true) as Happ.
  { destruct Hcase as [[Ha ->]|(_ & e & _ & _ & ->)]; [done|].
    by rewrite (proj1 (rewrite_event_get _ _ _ _ _ _)). }
  unfold _apply_mapping. rewrite Hen, Happ. simpl.
  by rewrite bool_decide_eq_false_2.
Qed.

(** The alias ["/n"] expands to ["/n now"], which begins with the alias
    again; the second run leaves it alone. *)
Lemma match_idempotent_witness :
  message_str
    (_apply_mapping {| enabled := true; mappings := [entry_of "/n" "/n now" "keep" ""] |}
       (_apply_mapping {| enabled := true; mappings := [entry_of "/n" "/n now" "keep" ""] |}
          (fresh_event "/n") ∅).2 ∅).2
  = lit "/n now".
Proof.
  rewrite (match_idempotent
             {| enabled := true; mappings := [entry_of "/n" "/n now" "keep" ""] |}
             (fresh_event "/n") ∅
             (_apply_mapping {| enabled := true;
                                mappings := [entry_of "/n" "/n now" "keep" ""] |}
                (fresh_event "/n") ∅).2);
    vm_compute; reflexivity.
Defined.



End pipeline.

(** * More on the inline DSL *)

Section inline_more.
Implicit Types (s t sep p line opt : pystr) (c : N) (e : MappingEntry).

Lemma parse_line_parts line :
  _parse_mapping_line line
  = if bool_decide (line = []) then None
    else parse_parts (filter (λ part, part ≠ []) (strip <$> split BAR2 line)).
Proof. done. Qed.

Lemma strip_idemp s : strip (strip s) = strip s.
Proof. unfold strip at 2. by rewrite strip_rstrip, strip_lstrip. Qed.

Lemma apply_option_strip st opt : apply_option st (strip opt) = apply_option st opt.
Proof. unfold apply_option. by rewrite strip_idemp. Qed.

(** Every piece of [split] is a contiguous part of the text. *)
Lemma split_fuel_infix fuel sep s p :
  p ∈ split_fuel fuel sep s → ∃ a b, s = a ++ p ++ b.
Proof.
  revert s. induction fuel as [|fuel IH]; intros s; simpl.
  - destruct (find sep s) as [i|].
    + intros ->%list_elem_of_singleton. exists [], (drop i s).
      by rewrite take_drop.
    + intros ->%list_elem_of_singleton. exists [], []. by rewrite app_nil_r.
  - destruct (find sep s) as [i|].
    + intros [->|Hp]%elem_of_cons.
      * exists [], (drop i s). by rewrite take_drop.
      * destruct (IH _ Hp) as (a & b & Hab).
        exists (take (i + length sep) s ++ a), b.
        rewrite <- (assoc_L (++)), <- Hab. by rewrite take_drop.
    + intros ->%list_elem_of_singleton. exists [], []. by rewrite app_nil_r.
Qed.

Lemma parts_infix line part :
  part ∈ filter (λ part, part ≠ []) (strip <$> split BAR2 line) →
  ∃ a b, line = a ++ part ++ b.
Proof.
  intros [_ Hin]%list_elem_of_filter.
  apply list_elem_of_fmap in Hin as (piece & -> & Hin).
  apply split_fuel_infix in Hin as (a & b & ->).
  destruct (strip_infix piece) as (w1 & w2 & Hw).
  exists (a ++ w1), (w2 ++ b). rewrite Hw at 1. by rewrite <- !(assoc_L (++)).
Qed.

Lemma cut_at_absent sep s : contains sep s = false → cut_at sep s = None.
Proof. unfold contains, cut_at. by destruct (find sep s). Qed.

(** X8: a line with neither [=>] nor [->] in it yields no entry. *)
Theorem parse_without_separator line :
  contains ARROW line = false → contains DASH_ARROW line = false →
  _parse_mapping_line line = None.
Proof.
  intros H1 H2. rewrite parse_line_parts. case_bool_decide; [done|].
  destruct (filter _ _) as [|mapping_part opts] eqn:Hparts; [done|].
  destruct (parts_infix line mapping_part) as (a & b & Hab).
  { rewrite Hparts. by left. }
  simpl. rewrite !cut_at_absent; [done|..].
  - apply contains_false. intros Ho. apply contains_false in H2. apply H2.
    rewrite Hab. by apply occurs_infix.
  - apply contains_false. intros Ho. apply contains_false in H1. apply H1.
    rewrite Hab. by apply occurs_infix.
Qed.

Lemma parse_without_separator_witness :
  _parse_mapping_line (lit "/new = /n || silent") = None.
Proof. apply parse_without_separator; reflexivity. Defined.

(** A line without ["||"] is one segment. *)
Lemma parse_single_part line :
  contains BAR2 line = false → strip line ≠ [] →
  _parse_mapping_line line = parse_parts [strip line].
Proof.
  intros Hbar Hne. rewrite parse_line_parts.
  rewrite bool_decide_eq_false_2 by (by intros ->).
  unfold split. rewrite split_fuel_absent.
  2: { unfold contains in Hbar. by destruct (find BAR2 _). }
  cbn [fmap list_fmap]. by rewrite filter_cons_True, filter_nil.
Qed.

Lemma strip_two_sides A sep B :
  blank A = false → blank B = false →
  strip (A ++ sep ++ B) = lstrip A ++ sep ++ rstrip B.
Proof.
  intros HA HB. unfold strip. rewrite lstrip_app by done.
  rewrite (assoc_L (++)), rstrip_app by done. by rewrite <- (assoc_L (++)).
Qed.

Lemma not_blank s : strip s ≠ [] → blank s = false.
Proof. intros H. destruct (blank s) eqn:E; [|done]. by apply strip_nil in E. Qed.

(** The cut of a segment [A sep B] at a separator of two different code
    points that does not occur in [A]. *)
Lemma cut_two_sides x y A B :
  x ≠ y → contains [x; y] A = false → strip A ≠ [] → strip B ≠ [] →
  strip (A ++ [x; y] ++ B) ≠ []
  ∧ cut_at [x; y] (strip (A ++ [x; y] ++ B)) = Some (lstrip A, rstrip B).
Proof.
  intros Hxy HA HsA HsB.
  rewrite strip_two_sides by (by apply not_blank).
  assert (lstrip A ≠ []) as HlA.
  { intros H. apply lstrip_nil in H. apply not_blank in HsA. congruence. }
  split; [by destruct (lstrip A)|].
  unfold cut_at. rewrite find_two_app; [|done|].
  - rewrite take_app_length, <- drop_drop, drop_app_length. done.
  - apply find_None. intros Ho. apply contains_false in HA. apply HA.
    destruct (lstrip_suffix A) as [w Hw]. rewrite Hw. by apply occurs_suffix.
Qed.

(** X9: the [->] form.  A line [A -> B] without [=>], without option
    segments and with sides that are not blank is parsed to the entry with
    the trimmed left side as target and the trimmed right side as alias. *)
Theorem parse_dash_line (A B : pystr) :
  contains ARROW (A ++ DASH_ARROW ++ B) = false →
  contains DASH_ARROW A = false →
  contains BAR2 (A ++ DASH_ARROW ++ B) = false →
  strip A ≠ [] → strip B ≠ [] →
  _parse_mapping_line (A ++ DASH_ARROW ++ B)
  = Some {| alias_raw := strip B; target_raw := strip A;
            reply_mode := KEEP; reply_text := [] |}.
Proof.
  intros Harrow HA Hbar HsA HsB.
  destruct (cut_two_sides 45 62 A B) as [Hne Hcut]; [done..|].
  change [45; 62] with DASH_ARROW in *.
  rewrite parse_single_part by done. unfold parse_parts.
  rewrite cut_at_absent, Hcut.
  2: { apply contains_false. intros Ho%occurs_strip.
       by apply contains_false in Harrow. }
  rewrite strip_lstrip, strip_rstrip.
  by rewrite !bool_decide_eq_false_2.
Qed.

Lemma parse_dash_line_witness :
  _parse_mapping_line (lit "/reset -> /r") = Some (entry_of "/r" "/reset" "keep" "").
Proof.
  apply (parse_dash_line (lit "/reset ") (lit " /r")); [reflexivity..|done|done].
Defined.

Lemma parse_parts_snoc parts opt e :
  parse_parts parts = Some e →
  parse_parts (parts ++ [opt])
  = Some (with_reply e (apply_option (reply_mode e, reply_text e) opt)).
Proof.
  destruct parts as [|mapping_part opts]; [done|].
  rewrite <- app_comm_cons. unfold parse_parts.
  destruct (match cut_at ARROW mapping_part with
            | Some p => Some p
            | None => cut_at DASH_ARROW mapping_part
            end) as [[t a]|]; [|done].
  destruct (_ || _); [done|]. intros [= <-]. simpl.
  rewrite foldl_app. simpl. unfold with_reply. simpl.
  by destruct (foldl apply_option (KEEP, []) opts).
Qed.

Lemma parse_line_snoc_option line opt e :
  _parse_mapping_line line = Some e →
  last line ≠ Some 124 →
  contains BAR2 opt = false →
  _parse_mapping_line (line ++ BAR2 ++ opt)
  = if bool_decide (strip opt = []) then Some e
    else Some (with_reply e (apply_option (reply_mode e, reply_text e) opt)).
Proof.
  intros Hparse Hlast Hopt. rewrite parse_line_parts in Hparse.
  rewrite parse_line_parts.
  destruct (bool_decide (line = [])) eqn:Hline; [done|].
  apply bool_decide_eq_false in Hline.
  rewrite bool_decide_eq_false_2 by (by destruct line).
  rewrite split_app_bar, fmap_app, filter_app by done.
  unfold split at 2. rewrite split_fuel_absent.
  2: { unfold contains in Hopt. by destruct (find BAR2 opt). }
  cbn [fmap list_fmap]. case_bool_decide as Hblank.
  - rewrite filter_cons_False, filter_nil, app_nil_r by (by intros []). done.
  - rewrite filter_cons_True, filter_nil by done.
    rewrite (parse_parts_snoc _ _ e Hparse). by rewrite apply_option_strip.
Qed.

(** X10: option segments compose from left to right.  Behind a line that
    parses to an entry (and does not end in ["|"]), one more segment changes
    the reply mode and reply text of that entry as [apply_option] says and
    nothing else; a blank segment changes nothing. *)
Theorem parse_append_option line opt e :
  _parse_mapping_line line = Some e →
  last line ≠ Some 124 →
  contains BAR2 opt = false →
  _parse_mapping_line (line ++ BAR2 ++ opt)
  = if bool_decide (strip opt = []) then Some e
    else Some (with_reply e (apply_option (reply_mode e, reply_text e) opt)).
Proof. apply parse_line_snoc_option. Qed.

(** [silent] behind a line with a reply text: the text stays, unused. *)
Lemma parse_append_option_witness :
  _parse_mapping_line (lit "/new => /n || reply=hi || silent")
  = Some (entry_of "/n" "/new" "silent" "hi").
Proof.
  apply (parse_append_option (lit "/new => /n || reply=hi ") (lit " silent")
           (entry_of "/n" "/new" "custom" "hi")); [reflexivity|done|reflexivity].
Defined.

End inline_more.

(** * Invariants of the rule store *)

Section store_invariants.
Implicit Types (s line opt : pystr) (e : MappingEntry) (st : pystr * pystr).

Lemma reply_modes_elem x :
  x ∈ reply_modes ↔ x = KEEP ∨ x = SILENT ∨ x = CUSTOM.
Proof.
  unfold reply_modes. rewrite !elem_of_cons, elem_of_nil. tauto.
Qed.

Lemma apply_option_mode st opt :
  st.1 ∈ reply_modes → (apply_option st opt).1 ∈ reply_modes.
Proof.
  intros Hst. unfold apply_option.
  repeat match goal with
         | |- context [if bool_decide (?x ∈ [SILENT; CUSTOM; KEEP]) then _ else _] =>
             destruct (bool_decide (x ∈ [SILENT; CUSTOM; KEEP])) eqn:Hmode
         | |- context [if ?b then _ else _] => destruct b
         end; simpl; try done;
    try (apply reply_modes_elem; by auto).
  apply bool_decide_eq_true in Hmode. apply reply_modes_elem.
  rewrite !elem_of_cons, elem_of_nil in Hmode. tauto.
Qed.

Lemma apply_option_trimmed st opt :
  trimmed st.2 → trimmed (apply_option st opt).2.
Proof.
  intros Hst. unfold apply_option, trimmed.
  repeat match goal with
         | |- context [if ?b then _ else _] => destruct b
         end; simpl; auto using strip_idemp.
Qed.

Lemma foldl_apply_option_inv opts st :
  st.1 ∈ reply_modes → trimmed st.2 →
  (foldl apply_option st opts).1 ∈ reply_modes
  ∧ trimmed (foldl apply_option st opts).2.
Proof.
  revert st. induction opts as [|opt opts IH]; intros st H1 H2; simpl; [done|].
  apply IH; [by apply apply_option_mode | by apply apply_option_trimmed].
Qed.

Lemma parse_line_invariant line e :
  _parse_mapping_line line = Some e → entry_invariant e.
Proof.
  rewrite parse_line_parts. case_bool_decide; [done|].
  destruct (filter _ _) as [|mapping_part opts]; [done|]. unfold parse_parts.
  destruct (match cut_at ARROW mapping_part with
            | Some p => Some p
            | None => cut_at DASH_ARROW mapping_part
            end) as [[t a]|]; [|done].
  destruct (_ || _); [done|]. intros [= <-]. unfold entry_invariant. simpl.
  destruct (foldl_apply_option_inv opts (KEEP, [])) as [Hm Ht];
    [apply reply_modes_elem; by left | done |].
  split_and!; [done | apply strip_idemp | apply strip_idemp | done].
Qed.

Lemma read_str_trimmed v : trimmed (_read_str v).
Proof. destruct v; simpl; [done | apply strip_idemp | done]. Qed.

Lemma read_text_trimmed v : trimmed (_read_text v).
Proof. destruct v; simpl; [done | apply strip_idemp..]. Qed.

Lemma config_invariant command alias_text silent text e :
  _build_mapping_from_config command alias_text silent text = Some e →
  entry_invariant e.
Proof.
  unfold _build_mapping_from_config, entry_invariant.
  destruct (_ || _); [done|]. intros [= <-]. simpl.
  split_and!; [|apply read_str_trimmed..|apply read_text_trimmed].
  apply reply_modes_elem. destruct (py_bool silent); [by auto|].
  case_bool_decide; by auto.
Qed.

Lemma store_entries_inv (P : MappingEntry → Prop) :
  (∀ line e, _parse_mapping_line line = Some e → P e) →
  (∀ command alias_text silent text e,
     _build_mapping_from_config command alias_text silent text = Some e → P e) →
  ∀ config e, e ∈ mappings (_load_config config) → P e.
Proof.
  intros Hline Hcfg config e. unfold _load_config. cbn [mappings].
  rewrite !elem_of_app.
  intros [H%opt_to_list_elem|[H%opt_to_list_elem|[H|[H|H]]]].
  - destruct (_cfg config (lit "reset_rule") (ADict ∅)); simpl in H; eauto; done.
  - destruct (_cfg config (lit "new_rule") (ADict ∅)); simpl in H; eauto; done.
  - destruct (_cfg config (lit "custom_rules") (AList [])); simpl in H;
      try by apply elem_of_nil in H.
    apply list_elem_of_omap in H as (item & _ & H).
    destruct item; simpl in H; eauto; done.
  - destruct (_cfg config (lit "rules_text") (AStr [])); simpl in H;
      try by apply elem_of_nil in H.
    apply list_elem_of_omap in H as (raw & _ & H). unfold text_line in H.
    destruct (bool_decide _); [done|]. destruct (_ || _); [done|]. eauto.
  - apply list_elem_of_omap in H as (item & _ & H).
    destruct item; simpl in H; [eauto| |done].
    destruct (_ || _); [done|]. eauto.
Qed.

(** X11: every entry of a store built by [_load_config] has one of the
    three reply modes ["keep"], ["silent"], ["custom"], whatever the option
    segments and record fields say. *)
Theorem stored_reply_modes (config : plugin_config) (e : MappingEntry) :
  e ∈ mappings (_load_config config) →
  reply_mode e = KEEP ∨ reply_mode e = SILENT ∨ reply_mode e = CUSTOM.
Proof.
  intros He.
  assert (entry_invariant e) as [Hm _].
  { revert config e He.
    apply store_entries_inv; [apply parse_line_invariant | apply config_invariant]. }
  by apply reply_modes_elem.
Qed.

Lemma stored_reply_modes_witness :
  reply_mode (entry_of "/r" "/reset" "keep" "") = KEEP
  ∨ reply_mode (entry_of "/r" "/reset" "keep" "") = SILENT
  ∨ reply_mode (entry_of "/r" "/reset" "keep" "") = CUSTOM.
Proof.
  apply (stored_reply_modes config_reset_r).
  vm_compute. apply list_elem_of_singleton. reflexivity.
Defined.

(** X12: the alias, the target and the reply text of every entry of a
    store built by [_load_config] carry no white space at either end. *)
Theorem stored_entries_trimmed (config : plugin_config) (e : MappingEntry) :
  e ∈ mappings (_load_config config) →
  strip (alias_raw e) = alias_raw e
  ∧ strip (target_raw e) = target_raw e
  ∧ strip (reply_text e) = reply_text e.
Proof.
  intros He.
  assert (entry_invariant e) as (_ & Ha & Ht & Hr); [|done].
  revert config e He.
  apply store_entries_inv; [apply parse_line_invariant | apply config_invariant].
Qed.

Lemma stored_entries_trimmed_witness :
  strip (lit "/r") = lit "/r" ∧ strip (lit "/reset") = lit "/reset"
  ∧ strip (lit "") = lit "".
Proof.
  apply (stored_entries_trimmed config_reset_r (entry_of "/r" "/reset" "keep" "")).
  vm_compute. apply list_elem_of_singleton. reflexivity.
Defined.

End store_invariants.

(** * Option segments and the structured record *)

Section options.
Implicit Types (s t v line opt : pystr) (c : N) (e : MappingEntry)
  (st : pystr * pystr).

Lemma rstrip_app_blank s t : blank t = true → rstrip (s ++ t) = rstrip s.
Proof.
  intros Ht. induction s as [|c s IH]; simpl.
  - by apply rstrip_nil.
  - by rewrite IH.
Qed.

(** Trimming a text that begins with a literal key. *)
Lemma strip_key_value key v :
  lstrip key = key → rstrip key = key → key ≠ [] →
  strip (key ++ v) = key ++ rstrip v.
Proof.
  intros Hl Hr Hne. unfold strip.
  assert (lstrip (key ++ v) = key ++ v) as ->.
  { destruct key as [|c key]; [done|]. simpl in *.
    destruct (isspace c); [|done].
    exfalso. pose proof (lstrip_suffix key) as [w Hw]. rewrite Hl in Hw.
    apply (f_equal length) in Hw. rewrite length_app in Hw. simpl in Hw. lia. }
  destruct (blank v) eqn:Hv.
  - rewrite rstrip_app_blank by done. apply rstrip_nil in Hv.
    by rewrite Hv, app_nil_r.
  - by apply rstrip_app.
Qed.

Lemma apply_option_key_value st v :
  apply_option st (lit "reply=" ++ v) = (CUSTOM, strip v)
  ∧ apply_option st (lit "reply_text=" ++ v) = (CUSTOM, strip v)
  ∧ apply_option st (lit "text=" ++ v) = (CUSTOM, strip v).
Proof.
  unfold apply_option. split_and!.
  - rewrite (strip_key_value (lit "reply=")) by done.
    transitivity (CUSTOM, strip (rstrip v)); [reflexivity|].
    by rewrite strip_rstrip.
  - rewrite (strip_key_value (lit "reply_text=")) by done.
    transitivity (CUSTOM, strip (rstrip v)); [reflexivity|].
    by rewrite strip_rstrip.
  - rewrite (strip_key_value (lit "text=")) by done.
    transitivity (CUSTOM, strip (rstrip v)); [reflexivity|].
    by rewrite strip_rstrip.
Qed.

(** X13: the option [reply=<value>] sets the reply text to the trimmed
    value and the mode to [custom], for every value, the empty one
    included; so do [reply_text=<value>] and [text=<value>]. *)
Theorem option_reply_value st v :
  apply_option st (lit "reply=" ++ v) = (CUSTOM, strip v)
  ∧ apply_option st (lit "reply_text=" ++ v) = (CUSTOM, strip v)
  ∧ apply_option st (lit "text=" ++ v) = (CUSTOM, strip v).
Proof. apply apply_option_key_value. Qed.

(** X14: the option [reply_mode=<value>] sets the mode to the lower-cased
    trimmed value when that is one of the three modes, and leaves the reply
    text alone; a value that is neither a mode nor one of the localized
    words changes nothing. *)
Theorem option_reply_mode_value st v :
  (lower (strip v) ∈ [SILENT; CUSTOM; KEEP] →
   apply_option st (lit "reply_mode=" ++ v) = (lower (strip v), st.2))
  ∧ (lower (strip v) ∉ [SILENT; CUSTOM; KEEP] →
     strip v ∉ silent_words_zh → strip v ∉ custom_words_zh →
     strip v ∉ keep_words_zh →
     apply_option st (lit "reply_mode=" ++ v) = st).
Proof.
  assert (apply_option st (lit "reply_mode=" ++ v)
          = if bool_decide (lower (strip v) ∈ [SILENT; CUSTOM; KEEP])
            then (lower (strip v), st.2)
            else if bool_decide (strip v ∈ silent_words_zh) then (SILENT, st.2)
            else if bool_decide (strip v ∈ custom_words_zh) then (CUSTOM, st.2)
            else if bool_decide (strip v ∈ keep_words_zh) then (KEEP, st.2)
            else st) as ->.
  { unfold apply_option.
    rewrite (strip_key_value (lit "reply_mode=")) by done.
    rewrite <- (strip_rstrip v). reflexivity. }
  split.
  - intros H. by rewrite bool_decide_eq_true_2.
  - intros H1 H2 H3 H4. by rewrite !bool_decide_eq_false_2.
Qed.

Lemma option_reply_mode_value_witness :
  apply_option (KEEP, lit "hi") (lit "reply_mode= Silent ") = (SILENT, lit "hi")
  ∧ apply_option (SILENT, lit "hi") (lit "reply_mode=quiet") = (SILENT, lit "hi").
Proof.
  split.
  - apply (proj1 (option_reply_mode_value (KEEP, lit "hi") (lit " Silent "))).
    apply elem_of_cons. left. reflexivity.
  - apply (proj2 (option_reply_mode_value (SILENT, lit "hi") (lit "quiet")));
      intros H; vm_compute in H;
      repeat (apply elem_of_cons in H as [H|H]; [discriminate H|]);
      by apply elem_of_nil in H.
Defined.

End options.

(** * The structured record and the inline line *)

Section record_and_line.
Implicit Types (s t sep line opt : pystr) (c a : pystr) (x : N).

Lemma occurs_snoc_inv sep s x : x ∉ sep → occurs sep (s ++ [x]) → occurs sep s.
Proof.
  intros Hx (l & r & H). destruct (decide (r = [])) as [->|Hr].
  - rewrite app_nil_r in H. destruct (decide (sep = [])) as [->|Hsep].
    + exists s, []. by rewrite !app_nil_r.
    + exfalso. apply Hx.
      assert (last (l ++ sep) = Some x) as Hlast by (by rewrite <- H, last_snoc).
      rewrite last_app in Hlast. destruct (last sep) as [y|] eqn:Hy.
      * injection Hlast as ->. by apply last_Some_elem_of.
      * by apply last_None in Hy.
  - destruct (exists_last Hr) as (r' & y & ->).
    rewrite !(assoc_L (++)) in H. apply app_inj_tail in H as [-> _].
    exists l, r'. by rewrite <- (assoc_L (++)).
Qed.

Lemma occurs_cons_inv sep x s : x ∉ sep → occurs sep (x :: s) → occurs sep s.
Proof.
  intros Hx (l & r & H). destruct l as [|y l].
  - destruct sep as [|z sep]; [exists [], s; done|].
    injection H as -> _. exfalso. apply Hx. by left.
  - injection H as _ ->. by exists l, r.
Qed.

Lemma strip_app_blank s w : blank w = true → strip (s ++ w) = strip s.
Proof.
  intros Hw. destruct (blank s) eqn:Hs.
  - assert (blank (s ++ w) = true) as Hsw.
    { unfold blank in *. by rewrite forallb_app, Hs, Hw. }
    apply strip_nil in Hs, Hsw. by rewrite Hs, Hsw.
  - unfold strip. rewrite lstrip_app by done. by apply rstrip_app_blank.
Qed.

(** The [=>] form, for use below. *)
Lemma parse_arrow_sides A B :
  contains ARROW A = false →
  contains BAR2 (A ++ ARROW ++ B) = false →
  strip A ≠ [] → strip B ≠ [] →
  _parse_mapping_line (A ++ ARROW ++ B)
  = Some {| alias_raw := strip B; target_raw := strip A;
            reply_mode := KEEP; reply_text := [] |}.
Proof.
  intros HA Hbar HsA HsB.
  destruct (cut_two_sides 61 62 A B) as [Hne Hcut]; [done..|].
  change [61; 62] with ARROW in *.
  rewrite parse_single_part by done. unfold parse_parts. rewrite Hcut.
  rewrite strip_lstrip, strip_rstrip.
  by rewrite !bool_decide_eq_false_2.
Qed.

Lemma record_base_line c a w :
  contains ARROW c = false →
  contains BAR2 (c ++ lit " => " ++ a ++ w) = false →
  strip c ≠ [] → strip a ≠ [] → blank w = true →
  _parse_mapping_line (c ++ lit " => " ++ a ++ w)
  = Some {| alias_raw := strip a; target_raw := strip c;
            reply_mode := KEEP; reply_text := [] |}.
Proof.
  intros Hc Hbar Hsc Hsa Hw.
  assert (c ++ lit " => " ++ a ++ w = (c ++ [32]) ++ ARROW ++ (32 :: a ++ w)) as Heq.
  { change (lit " => ") with ([32] ++ ARROW ++ [32]).
    by rewrite <- !(assoc_L (++)). }
  rewrite Heq in *.
  assert (strip (c ++ [32]) = strip c) as Hc' by (by apply strip_app_blank).
  assert (strip (32 :: a ++ w) = strip a) as Ha'.
  { change (strip (32 :: a ++ w)) with (strip (a ++ w)). by apply strip_app_blank. }
  rewrite parse_arrow_sides; [by rewrite Hc', Ha' | | done | congruence | congruence].
  apply contains_false. intros Ho. apply contains_false in Hc. apply Hc.
  apply (occurs_snoc_inv _ _ 32); [|done].
  intros H. vm_compute in H.
  repeat (apply elem_of_cons in H as [H|H]; [discriminate H|]).
  by apply elem_of_nil in H.
Qed.

Lemma apply_option_lead_space st opt : apply_option st (32 :: opt) = apply_option st opt.
Proof. reflexivity. Qed.

Local Ltac not_in_bar :=
  let H := fresh in
  intros H; vm_compute in H;
  repeat (apply elem_of_cons in H as [H|H]; [discriminate H|]);
  by apply elem_of_nil in H.

(** X15: the structured-record builder and the inline DSL agree.  For a
    command [c] and an alias [a] that are not blank, with no [=>] in [c] and
    no ["||"] in [c => a], the record [(c, a)] is parsed like the line
    [c => a]; with the [silent] flag like [c => a || silent]; and with a
    reply text [t] that is not blank and has no ["||"] like
    [c => a || reply=t]. *)
Theorem record_refines_inline (c a : pystr) :
  contains ARROW c = false →
  contains BAR2 (c ++ lit " => " ++ a) = false →
  strip c ≠ [] → strip a ≠ [] →
  _build_mapping_from_config (VStr c) (VStr a) VFalse VNone
  = _parse_mapping_line (c ++ lit " => " ++ a)
  ∧ _build_mapping_from_config (VStr c) (VStr a) VTrue VNone
    = _parse_mapping_line (c ++ lit " => " ++ a ++ lit " || silent")
  ∧ (∀ t, contains BAR2 t = false → strip t ≠ [] →
       _build_mapping_from_config (VStr c) (VStr a) VFalse (VStr t)
       = _parse_mapping_line (c ++ lit " => " ++ a ++ lit " || reply=" ++ t)).
Proof.
  intros Hc Hbar Hsc Hsa.
  assert (∀ silent text,
            _build_mapping_from_config (VStr c) (VStr a) silent text
            = Some {| alias_raw := strip a; target_raw := strip c;
                      reply_mode :=
                        if py_bool silent then SILENT
                        else if bool_decide (_read_text text = []) then KEEP
                             else CUSTOM;
                      reply_text := _read_text text |}) as Hrec.
  { intros silent text. unfold _build_mapping_from_config. simpl.
    rewrite (bool_decide_eq_false_2 (strip c = [])) by done.
    by rewrite (bool_decide_eq_false_2 (strip a = [])). }
  assert (_parse_mapping_line ((c ++ lit " => " ++ a) ++ [32])
          = Some {| alias_raw := strip a; target_raw := strip c;
                    reply_mode := KEEP; reply_text := [] |}) as Hpad.
  { rewrite <- !(assoc_L (++)). apply record_base_line; try done.
    rewrite !(assoc_L (++)). apply contains_false. intros Ho.
    apply contains_false in Hbar. apply Hbar. rewrite !(assoc_L (++)).
    apply (occurs_snoc_inv _ _ 32); [not_in_bar | done]. }
  assert (∀ opt, c ++ lit " => " ++ a ++ lit " ||" ++ opt
                 = ((c ++ lit " => " ++ a) ++ [32]) ++ BAR2 ++ opt) as Hline.
  { intros opt. change (lit " ||") with ([32] ++ BAR2).
    by rewrite <- !(assoc_L (++)). }
  split_and!.
  - pose proof (record_base_line c a [] Hc) as Hbase.
    rewrite app_nil_r in Hbase. by rewrite Hbase, Hrec.
  - change (lit " || silent") with (lit " ||" ++ lit " silent").
    rewrite Hline, (parse_line_snoc_option _ _ _ Hpad);
      [by rewrite Hrec | by rewrite last_snoc | done].
  - intros t Ht Hst.
    change (lit " || reply=") with (lit " ||" ++ lit " reply=").
    rewrite <- (assoc_L (++) (lit " ||")), Hline.
    rewrite (parse_line_snoc_option _ _ _ Hpad); [|by rewrite last_snoc|].
    + change (lit " reply=" ++ t) with (32 :: (lit "reply=" ++ t)).
      rewrite apply_option_lead_space.
      change (strip (32 :: (lit "reply=" ++ t))) with (strip (lit "reply=" ++ t)).
      rewrite (strip_key_value (lit "reply=")) by done.
      rewrite bool_decide_eq_false_2 by done.
      rewrite (proj1 (apply_option_key_value _ t)), Hrec. simpl.
      by rewrite bool_decide_eq_false_2.
    + apply contains_false. intros Ho. apply contains_false in Ht. apply Ht.
      change (lit " reply=" ++ t)
        with (32 :: 114 :: 101 :: 112 :: 108 :: 121 :: 61 :: t) in Ho.
      do 7 (apply occurs_cons_inv in Ho; [|not_in_bar]). done.
Qed.

Lemma record_refines_inline_witness :
  _build_mapping_from_config (VStr (lit " /new")) (VStr (lit "/n ")) VFalse
    (VStr (lit "on it"))
  = _parse_mapping_line (lit " /new => /n  || reply=on it").
Proof.
  apply (proj2 (proj2 (record_refines_inline (lit " /new") (lit "/n ")
                         eq_refl eq_refl ltac:(done) ltac:(done)))
           (lit "on it")); [reflexivity | done].
Defined.

End record_and_line.

(** * The free-text block *)

Section text_block.
Implicit Types (s a b cur : pystr) (c d : N).

Lemma splitlines_go_cr cur d s :
  splitlines_go cur (13 :: d :: s)
  = if d =? 10 then rev cur :: splitlines_go [] s
    else rev cur :: splitlines_go [] (d :: s).
Proof.
  destruct d as [|p]; [reflexivity|].
  destruct p as [p|p|]; [reflexivity| |reflexivity].
  destruct p as [p|p|]; [|reflexivity|reflexivity].
  destruct p as [p|p|]; [reflexivity| |reflexivity].
  destruct p as [p|p|]; reflexivity.
Qed.

Lemma splitlines_go_other cur c s :
  (c =? 13) = false →
  splitlines_go cur (c :: s)
  = if is_linebreak c then rev cur :: splitlines_go [] s
    else splitlines_go (c :: cur) s.
Proof. intros Hc. simpl. by rewrite Hc. Qed.

Lemma text_line_nil : text_line [] = None.
Proof. reflexivity. Qed.

Lemma omap_text_line_end cur :
  omap text_line (match cur with [] => [] | _ => [rev cur] end)
  = omap text_line [rev cur].
Proof. by destruct cur. Qed.

Lemma omap_text_line_cons s (l : list pystr) :
  omap text_line (s :: l)
  = match text_line s with
    | Some e => e :: omap text_line l
    | None => omap text_line l
    end.
Proof. done. Qed.

Lemma lines_app_newline a b cur :
  omap text_line (splitlines_go cur (a ++ 10 :: b))
  = omap text_line (splitlines_go cur a) ++ omap text_line (splitlines b).
Proof.
  remember (length a) as n eqn:Hn. revert a cur Hn.
  induction (lt_wf n) as [n _ IH]. intros a cur ->.
  destruct a as [|c a].
  - change (splitlines_go cur ([] ++ 10 :: b))
      with (rev cur :: splitlines_go [] b).
    change (splitlines_go cur [])
      with (match cur with [] => [] | _ => [rev cur] end).
    rewrite omap_text_line_end. simpl.
    by destruct (text_line (rev cur)).
  - rewrite <- app_comm_cons. destruct (c =? 13) eqn:Hc.
    + apply N.eqb_eq in Hc as ->. destruct a as [|d a].
      * change (splitlines_go cur (13 :: [] ++ 10 :: b))
          with (rev cur :: splitlines_go [] b).
        change (splitlines_go cur [13]) with [rev cur]. simpl.
        by destruct (text_line (rev cur)).
      * rewrite <- app_comm_cons, !splitlines_go_cr.
        destruct (d =? 10).
        -- rewrite !omap_text_line_cons, (IH (length a)); [|simpl; lia|done].
           by destruct (text_line (rev cur)).
        -- rewrite !omap_text_line_cons, app_comm_cons,
             (IH (length (d :: a))); [|simpl; lia|done].
           by destruct (text_line (rev cur)).
    + rewrite !splitlines_go_other by done. destruct (is_linebreak c).
      * rewrite !omap_text_line_cons, (IH (length a)); [|simpl; lia|done].
        by destruct (text_line (rev cur)).
      * apply (IH (length a)); [simpl; lia|done].
Qed.

Lemma splitlines_go_one_line cur s :
  Forall (λ c, is_linebreak c = false) s →
  splitlines_go cur s
  = match rev cur ++ s with [] => [] | _ => [rev cur ++ s] end.
Proof.
  intros Hs. revert cur. induction Hs as [|c s Hc _ IH]; intros cur.
  - simpl. rewrite app_nil_r. destruct cur as [|x cur]; [done|].
    simpl. by destruct (rev cur).
  - assert ((c =? 13) = false) as Hcr.
    { destruct (N.eqb_spec c 13) as [->|]; [done|done]. }
    rewrite splitlines_go_other, Hc, IH by done.
    simpl. by rewrite <- (assoc_L (++)).
Qed.

(** X16: the free-text block is read line by line.  Two texts joined by a
    line feed give the rules of the first followed by the rules of the
    second; a text without any line boundary gives what its one line gives:
    nothing if it is blank or a comment, else what the inline parser makes of
    the trimmed line. *)
Theorem rules_text_by_lines :
  (∀ a b,
     _build_mappings_from_text (AStr (a ++ 10 :: b))
     = _build_mappings_from_text (AStr a) ++ _build_mappings_from_text (AStr b))
  ∧ (∀ s, Forall (λ c, is_linebreak c = false) s →
       _build_mappings_from_text (AStr s) = opt_to_list (text_line s)).
Proof.
  split.
  - intros a b. apply lines_app_newline.
  - intros s Hs. simpl. unfold splitlines.
    rewrite splitlines_go_one_line by done. simpl.
    destruct s as [|c s]; [done|]. simpl. by destruct (text_line (c :: s)).
Qed.

Lemma rules_text_by_lines_witness :
  _build_mappings_from_text (AStr (lit "  # /a => /b || silent  ")) = [].
Proof.
  rewrite (proj2 rules_text_by_lines (lit "  # /a => /b || silent  ")).
  - reflexivity.
  - vm_compute. repeat constructor.
Defined.

End text_block.

(** * Loading a configuration without usable rules *)

Section load_edge.

(** X17: a missing configuration, missing keys and values of the wrong
    type give no rule.  Without a configuration object the store is enabled
    and empty; with one in which every value present is neither a [str], a
    [dict] nor a [list], the store is empty, and it is enabled unless
    [enable] is present and falsy. *)
Theorem load_config_no_rules :
  _load_config None = {| enabled := true; mappings := [] |}
  ∧ (∀ c : gmap pystr pyany,
       (∀ k, c !! k = None ∨ ∃ t, c !! k = Some (AOther t)) →
       mappings (_load_config (Some c)) = []
       ∧ (c !! lit "enable" = None → enabled (_load_config (Some c)) = true)
       ∧ (∀ t, c !! lit "enable" = Some (AOther t) →
            enabled (_load_config (Some c)) = t)).
Proof.
  split; [reflexivity|]. intros c Hc. split_and!.
  - unfold _load_config, _cfg. cbn [mappings].
    destruct (Hc (lit "reset_rule")) as [->|[? ->]];
      destruct (Hc (lit "new_rule")) as [->|[? ->]];
      destruct (Hc (lit "custom_rules")) as [->|[? ->]];
      destruct (Hc (lit "rules_text")) as [->|[? ->]];
      destruct (Hc (lit "mappings")) as [->|[? ->]]; reflexivity.
  - intros H. unfold _load_config, _cfg. cbn [enabled]. by rewrite H.
  - intros t H. unfold _load_config, _cfg. cbn [enabled]. by rewrite H.
Qed.

Lemma load_config_no_rules_witness :
  mappings (_load_config (Some (<[lit "mappings" := AOther true]> ∅))) = [].
Proof.
  apply (proj2 load_config_no_rules (<[lit "mappings" := AOther true]> ∅)).
  intros k. destruct (decide (lit "mappings" = k)) as [<-|Hk].
  - right. exists true. apply lookup_insert_eq.
  - left. rewrite lookup_insert_ne by done. apply lookup_empty.
Defined.

End load_edge.

(** * Matching and the layout of the message *)

Section layout.
Implicit Types (m : pystr) (ev : AstrMessageEvent).

Lemma apply_loop_layout m prefixes ev1 ev2 entries :
  _normalize_text m ≠ [] →
  (apply_loop prefixes (_normalize_text m) ev1 entries).1
  = (apply_loop prefixes (_normalize_text m) ev2 entries).1
  ∧ ((apply_loop prefixes (_normalize_text m) ev1 entries).1 = true →
     message_str (apply_loop prefixes (_normalize_text m) ev1 entries).2
     = message_str (apply_loop prefixes (_normalize_text m) ev2 entries).2).
Proof.
  intros Hm. induction entries as [|e rest IH]; [done|].
  destruct (selects prefixes (_normalize_text m) e) eqn:Hsel.
  - rewrite !apply_loop_hit by done. cbn [fst snd].
    by rewrite !rewrite_event_message.
  - by rewrite !apply_loop_skip.
Qed.

(** X18: matching sees the message only through its normalization.  Two
    events that are not yet annotated, agree on the wake flag and carry
    messages that differ in the layout of white space alone get the same
    answer, and when that answer is a match the same rewritten text. *)
Theorem match_modulo_layout STATE ev1 ev2 cfg :
  _normalize_text (message_str ev1) = _normalize_text (message_str ev2) →
  py_bool (get_extra ev1 K_APPLIED VFalse) = false →
  py_bool (get_extra ev2 K_APPLIED VFalse) = false →
  is_at_or_wake_command ev1 = is_at_or_wake_command ev2 →
  (_apply_mapping STATE ev1 cfg).1 = (_apply_mapping STATE ev2 cfg).1
  ∧ ((_apply_mapping STATE ev1 cfg).1 = true →
     message_str (_apply_mapping STATE ev1 cfg).2
     = message_str (_apply_mapping STATE ev2 cfg).2).
Proof.
  intros Hnorm H1 H2 Hwake. unfold _apply_mapping.
  rewrite H1, H2, Hwake, Hnorm.
  destruct (negb (enabled STATE) || _); [done|].
  destruct (negb (is_at_or_wake_command ev2)); [done|].
  case_bool_decide as Hm; [done|]. by apply apply_loop_layout.
Qed.

Lemma match_modulo_layout_witness :
  message_str (_apply_mapping store_new_reset (fresh_event "  /new    a b ") ∅).2
  = message_str (_apply_mapping store_new_reset (fresh_event "/new a b") ∅).2.
Proof.
  apply (match_modulo_layout store_new_reset (fresh_event "  /new    a b ")
           (fresh_event "/new a b") ∅); reflexivity.
Defined.

End layout.
